(** * tlox: scanner, parser and tree-walking evaluator (src/tlox/src/index.ts)

    A shallow embedding of the TypeScript program.  JavaScript values that
    the program manipulates are an inductive type; Numbers are IEEE-754
    binary64 values ([spec_float] with [prec = 53], [emax = 1024]); strings
    are sequences of code units ([string], one [ascii] per code unit, which
    covers the code units 0..255).  The host operators the program relies
    on ([+], [-], [/], [<], [===], [Number(..)], template strings,
    [JSON.stringify]) follow ECMA-262. *)

From Stdlib Require Import Bool Arith ZArith List String Ascii Lia.
From Stdlib Require Import SpecFloat DecimalString Sorted.
Import ListNotations.

Local Open Scope list_scope.
Local Open Scope string_scope.

(** ** Host numbers: binary64 *)

Module JsNumber.

Definition prec : Z := 53.
Definition emax : Z := 1024.

Definition number := spec_float.

Definition NaN : number := S754_nan.
Definition pos_zero : number := S754_zero false.
Definition infinity : number := S754_infinity false.

Definition add : number -> number -> number := SFadd prec emax.
Definition sub : number -> number -> number := SFsub prec emax.
Definition mul : number -> number -> number := SFmul prec emax.
Definition div : number -> number -> number := SFdiv prec emax.
Definition neg : number -> number := SFopp.

(** [Number::equal] and [Number::lessThan] ([None]: undefined, a NaN operand). *)
Definition equal (x y : number) : bool := SFeqb x y.
Definition lessThan (x y : number) : option bool :=
  match SFcompare x y with
  | None => None
  | Some Lt => Some true
  | Some _ => Some false
  end.

(** The Number value for the real [m * 10^e] ([m >= 0]), round to nearest,
    ties to even. *)
Definition of_decimal (m : Z) (e : Z) : number :=
  match m with
  | Zpos p =>
      match e with
      | Zneg q =>
          let '(mz, ez, lz) :=
            SFdiv_core_binary prec emax (Zpos p) 0 (Z.pow_pos 10 q) 0 in
          binary_round_aux prec emax false mz ez lz
      | _ => binary_normalize prec emax (Zpos p * 10 ^ e) 0 false
      end
  | _ => pos_zero
  end.

Definition of_nat (n : nat) : number := of_decimal (Z.of_nat n) 0.

End JsNumber.

Import JsNumber.

(** ** Host strings *)

Module JsString.

(** [String.prototype.substring(a, b)]: both ends clamped to the length,
    swapped when [a > b]. *)
Definition substring (a b : nat) (s : string) : string :=
  let len := String.length s in
  let a' := Nat.min a len in
  let b' := Nat.min b len in
  let from := Nat.min a' b' in
  let to := Nat.max a' b' in
  String.substring from (to - from) s.

(** [s[i]]: [None] is [undefined]. *)
Definition at_index (s : string) (i : nat) : option ascii := String.get i s.

(** The relational comparison of two Strings, code unit by code unit. *)
Definition lessThan (x y : string) : bool := String.ltb x y.

Fixpoint take_while (p : ascii -> bool) (s : string) : string * string :=
  match s with
  | String c r =>
      if p c then let '(t, d) := take_while p r in (String c t, d)
      else (EmptyString, s)
  | EmptyString => (EmptyString, EmptyString)
  end.

Fixpoint repeat (c : ascii) (n : nat) : string :=
  match n with
  | O => EmptyString
  | S n' => String c (repeat c n')
  end.

Definition of_nat (n : nat) : string := NilZero.string_of_uint (Nat.to_uint n).
Definition of_Z (z : Z) : string := NilZero.string_of_int (Z.to_int z).

End JsString.

(** ** [Number::toString] (radix 10) and [StringToNumber] *)

Module JsConvert.

(** [num / den >= 10^j] *)
Definition ge_pow10 (num den j : Z) : bool :=
  match j with
  | Zneg q => (den <=? num * Z.pow_pos 10 q)%Z
  | _ => (den * 10 ^ j <=? num)%Z
  end.

(** The [n] with [10^(n-1) <= num/den < 10^n], searched from [n]. *)
Fixpoint decimal_exponent (fuel : nat) (num den n : Z) : Z :=
  match fuel with
  | O => n
  | S fuel' =>
      if ge_pow10 num den n then decimal_exponent fuel' num den (n + 1)
      else if ge_pow10 num den (n - 1) then n
      else decimal_exponent fuel' num den (n - 1)
  end.

(** [(num / den) / 10^p] as a fraction. *)
Definition scaled (num den p : Z) : Z * Z :=
  match p with
  | Zneg q => ((num * Z.pow_pos 10 q)%Z, den)
  | _ => (num, (den * 10 ^ p)%Z)
  end.

(** The integers [s] and [n] of [Number::toString]: the least number of
    digits [k] for which some [s] of [k] digits has [s * 10^(n-k)] round to
    [x]; of two such [s] the closer one, the even one on a tie. *)
Fixpoint shortest_digits (fuel : nat) (x : number) (num den n k : Z) : Z * Z :=
  let p := (n - k)%Z in
  let '(a, b) := scaled num den p in
  let lo := (a / b)%Z in
  let hi := (lo + 1)%Z in
  let r := (a mod b)%Z in
  let ok_lo := JsNumber.equal (of_decimal lo p) x in
  let ok_hi := JsNumber.equal (of_decimal hi p) x in
  let up := if (2 * r =? b)%Z then Z.odd lo else (b <? 2 * r)%Z in
  let pick (s : Z) := if (s =? 10 ^ k)%Z then ((10 ^ (k - 1))%Z, (n + 1)%Z) else (s, n) in
  match fuel with
  | O => (lo, n)
  | S fuel' =>
      match ok_lo, ok_hi with
      | true, true => pick (if up then hi else lo)
      | true, false => pick lo
      | false, true => pick hi
      | false, false => shortest_digits fuel' x num den n (k + 1)
      end
  end.

Definition to_fraction (m : positive) (e : Z) : Z * Z :=
  match e with
  | Zneg q => (Zpos m, Z.pow_pos 2 q)
  | _ => ((Zpos m * 2 ^ e)%Z, 1%Z)
  end.

Definition format_digits (s n : Z) : string :=
  let d := JsString.of_Z s in
  let k := Z.of_nat (String.length d) in
  if ((-5 <=? n) && (n <=? 21))%Z then
    if (k <=? n)%Z then d ++ JsString.repeat "0" (Z.to_nat (n - k))
    else if (0 <? n)%Z then
      String.substring 0 (Z.to_nat n) d ++ "." ++
      String.substring (Z.to_nat n) (Z.to_nat (k - n)) d
    else "0." ++ JsString.repeat "0" (Z.to_nat (- n)) ++ d
  else
    let e := (n - 1)%Z in
    let sign := if (e <? 0)%Z then "-" else "+" in
    let mant :=
      if (k =? 1)%Z then d
      else String.substring 0 1 d ++ "." ++ String.substring 1 (Z.to_nat (k - 1)) d in
    mant ++ "e" ++ sign ++ JsString.of_Z (Z.abs e).

Definition number_to_string (x : number) : string :=
  match x with
  | S754_nan => "NaN"
  | S754_zero _ => "0"
  | S754_infinity s => if s then "-Infinity" else "Infinity"
  | S754_finite sg m e =>
      let '(num, den) := to_fraction m e in
      let n := decimal_exponent 700 num den 0 in
      let '(s, n') := shortest_digits 17 (S754_finite false m e) num den n 1 in
      (if sg then "-" else "") ++ format_digits s n'
  end.

(** [StrWhiteSpaceChar], among the code units 0..255. *)
Definition is_white_space (c : ascii) : bool :=
  let n := nat_of_ascii c in
  (((9 <=? n) && (n <=? 13)) || (n =? 32) || (n =? 160))%nat.

Fixpoint trim_left (s : string) : string :=
  match s with
  | String c r => if is_white_space c then trim_left r else s
  | EmptyString => EmptyString
  end.

Fixpoint trim_right (s : string) : string :=
  match s with
  | String c r =>
      match trim_right r with
      | EmptyString => if is_white_space c then EmptyString else String c EmptyString
      | r' => String c r'
      end
  | EmptyString => EmptyString
  end.

Definition digit_value (radix : nat) (c : ascii) : option Z :=
  let n := nat_of_ascii c in
  let v :=
    if ((48 <=? n) && (n <=? 57))%nat then Some (n - 48)
    else if ((97 <=? n) && (n <=? 102))%nat then Some (n - 87)
    else if ((65 <=? n) && (n <=? 70))%nat then Some (n - 55)
    else None in
  match v with
  | Some d => if (d <? radix)%nat then Some (Z.of_nat d) else None
  | None => None
  end.

Definition is_decimal_digit (c : ascii) : bool :=
  match digit_value 10 c with Some _ => true | None => false end.

(** The value of a string of digits of the radix; [None] when a character is
    not such a digit. *)
Fixpoint digits_value (radix : nat) (acc : Z) (s : string) : option Z :=
  match s with
  | EmptyString => Some acc
  | String c r =>
      match digit_value radix c with
      | Some d => digits_value radix (acc * Z.of_nat radix + d)%Z r
      | None => None
      end
  end.

(** [ExponentPart], optional: the exponent, or [None] when ill-formed. *)
Definition exponent_part (s : string) : option Z :=
  match s with
  | EmptyString => Some 0%Z
  | String c r =>
      if (Ascii.eqb c "e" || Ascii.eqb c "E")%bool then
        let '(neg, ds) :=
          match r with
          | String "-" r' => (true, r')
          | String "+" r' => (false, r')
          | _ => (false, r)
          end in
        match ds with
        | EmptyString => None
        | _ =>
            match digits_value 10 0 ds with
            | Some v => Some (if neg then (- v)%Z else v)
            | None => None
            end
        end
      else None
  end.

(** [StrUnsignedDecimalLiteral]. *)
Definition unsigned_decimal (s : string) : option number :=
  if String.eqb s "Infinity" then Some infinity
  else
    let '(ip, r1) := JsString.take_while is_decimal_digit s in
    let '(dot, fp, r2) :=
      match r1 with
      | String "." r =>
          let '(fp, r2) := JsString.take_while is_decimal_digit r in (true, fp, r2)
      | _ => (false, EmptyString, r1)
      end in
    let well_formed :=
      match ip, fp with
      | EmptyString, EmptyString => false
      | _, _ => true
      end in
    if well_formed then
      match digits_value 10 0 (ip ++ fp), exponent_part r2 with
      | Some m, Some e => Some (of_decimal m (e - Z.of_nat (String.length fp)))
      | _, _ => None
      end
    else None.

Definition non_decimal (s : string) : option number :=
  match s with
  | String "0" (String c ds) =>
      let radix :=
        if (Ascii.eqb c "x" || Ascii.eqb c "X")%bool then Some 16
        else if (Ascii.eqb c "o" || Ascii.eqb c "O")%bool then Some 8
        else if (Ascii.eqb c "b" || Ascii.eqb c "B")%bool then Some 2
        else None in
      match radix, ds with
      | Some rx, String _ _ =>
          match digits_value rx 0 ds with
          | Some v => Some (of_decimal v 0)
          | None => None
          end
      | _, _ => None
      end
  | _ => None
  end.

(** [StringToNumber]: NaN when the text is no [StringNumericLiteral]. *)
Definition string_to_number (str : string) : number :=
  let s := trim_right (trim_left str) in
  match s with
  | EmptyString => pos_zero
  | String c r =>
      match non_decimal s with
      | Some v => v
      | None =>
          let '(neg, body) :=
            if Ascii.eqb c "-" then (true, r)
            else if Ascii.eqb c "+" then (false, r)
            else (false, s) in
          match unsigned_decimal body with
          | Some v => if neg then JsNumber.neg v else v
          | None => NaN
          end
      end
  end.

End JsConvert.

Import JsConvert.

(** ** Host values and operators *)

(** The values a tlox run manipulates ([any] in the source): literals are
    [null], booleans, Numbers and Strings; [undefined] is what a visit
    method returns when its [switch] matches no case. *)
Inductive Value : Type :=
  | VUndefined
  | VNull
  | VBoolean (b : bool)
  | VNumber (x : number)
  | VString (s : string).

Inductive JsType : Type := TUndefined | TNull | TBoolean | TNumber | TString.

Definition JsType_eq_dec (a b : JsType) : {a = b} + {a <> b}.
Proof. decide equality. Defined.

Definition Type_of (v : Value) : JsType :=
  match v with
  | VUndefined => TUndefined
  | VNull => TNull
  | VBoolean _ => TBoolean
  | VNumber _ => TNumber
  | VString _ => TString
  end.

(** [Number(v)], that is [ToNumber]. *)
Definition ToNumber (v : Value) : number :=
  match v with
  | VUndefined => NaN
  | VNull => pos_zero
  | VBoolean b => if b then JsNumber.of_nat 1 else pos_zero
  | VNumber x => x
  | VString s => string_to_number s
  end.

Definition ToString (v : Value) : string :=
  match v with
  | VUndefined => "undefined"
  | VNull => "null"
  | VBoolean b => if b then "true" else "false"
  | VNumber x => number_to_string x
  | VString s => s
  end.

(** [l + r]: concatenation when an operand is a String, else the sum of the
    operands' Numbers. *)
Definition js_add (l r : Value) : Value :=
  match l, r with
  | VString _, _ | _, VString _ => VString (ToString l ++ ToString r)
  | _, _ => VNumber (JsNumber.add (ToNumber l) (ToNumber r))
  end.

Definition js_sub (l r : Value) : Value :=
  VNumber (JsNumber.sub (ToNumber l) (ToNumber r)).

Definition js_div (l r : Value) : Value :=
  VNumber (JsNumber.div (ToNumber l) (ToNumber r)).

Definition js_neg (v : number) : Value := VNumber (JsNumber.neg v).

(** [IsLessThan(x, y)]: [None] is the undefined result (a NaN operand). *)
Definition IsLessThan (x y : Value) : option bool :=
  match x, y with
  | VString a, VString b => Some (JsString.lessThan a b)
  | _, _ => JsNumber.lessThan (ToNumber x) (ToNumber y)
  end.

Definition js_lt (l r : Value) : Value :=
  VBoolean match IsLessThan l r with Some b => b | None => false end.

Definition js_gt (l r : Value) : Value :=
  VBoolean match IsLessThan r l with Some b => b | None => false end.

Definition js_le (l r : Value) : Value :=
  VBoolean match IsLessThan r l with Some b => negb b | None => false end.

Definition js_ge (l r : Value) : Value :=
  VBoolean match IsLessThan l r with Some b => negb b | None => false end.

(** Two values of one type that is not Number. *)
Definition SameValueNonNumber (x y : Value) : bool :=
  match x, y with
  | VString a, VString b => String.eqb a b
  | VBoolean a, VBoolean b => Bool.eqb a b
  | _, _ => true
  end.

(** [x === y] *)
Definition IsStrictlyEqual (x y : Value) : bool :=
  if JsType_eq_dec (Type_of x) (Type_of y) then
    match x, y with
    | VNumber a, VNumber b => JsNumber.equal a b
    | _, _ => SameValueNonNumber x y
    end
  else false.

(** [x == null] *)
Definition loosely_equals_null (x : Value) : bool :=
  match x with
  | VUndefined | VNull => true
  | _ => false
  end.

(** ** Tokens *)

Inductive TokenType : Type :=
  (* Single-character tokens *)
  | LEFT_PAREN | RIGHT_PAREN | LEFT_BRACE | RIGHT_BRACE
  | COMMA | DOT | MINUS | PLUS | SEMICOLON | SLASH | STAR
  (* One or two character tokens *)
  | BANG | BANG_EQUAL | EQUAL | EQUAL_EQUAL
  | GREATER | GREATER_EQUAL | LESS | LESS_EQUAL
  (* Literals *)
  | IDENTIFIER | STRING | NUMBER
  (* Keywords *)
  | AND | CLASS | ELSE | FALSE | FUN | FOR | IF | NIL | OR
  | PRINT | RETURN | SUPER | THIS | TRUE | VAR | WHILE
  | EOF.

Definition TokenType_eq_dec (a b : TokenType) : {a = b} + {a <> b}.
Proof. decide equality. Defined.

(** What a token's [type] field holds.  [Scanner.identifier] reads it from
    the object [Scanner.KEYWORDS] by [KEYWORDS[text]], a property lookup
    that also finds the members [KEYWORDS] inherits from
    [Object.prototype]; such a member is no [TokenType]. *)
Inductive TypeValue : Type :=
  | Kind (t : TokenType)
  | PrototypeMember (key : string).

(** [v === TokenType.t] *)
Definition type_is (v : TypeValue) (t : TokenType) : bool :=
  match v with
  | Kind t' => if TokenType_eq_dec t' t then true else false
  | PrototypeMember _ => false
  end.

Module Token.

Record t : Type := mk {
  type : TypeValue;
  lexeme : string;
  literal : Value;
  line : nat
}.

End Token.

Definition Token : Type := Token.t.

(** ** Expressions *)

Inductive Expr : Type :=
  | Binary (left : Expr) (operator : Token) (right : Expr)
  | Grouping (expr : Expr)
  | Literal (value : Value)
  | Unary (operator : Token) (right : Expr).

(** ** Interpreter *)

Module Interpreter.

Definition isTruthy (object : Value) : bool :=
  if loosely_equals_null object then false
  else
    match object with
    | VBoolean b => b
    | _ => true
    end.

Definition visitLiteralExpr (value : Value) : option Value := Some value.

(** [visitGroupingExpr(expr) { return this.evaluate(expr) }]: the argument
    of [evaluate] is the Grouping node itself. *)
Definition visitGroupingExpr (evaluate : Expr -> option Value) (this_node : Expr)
  : option Value :=
  evaluate this_node.

(** The [switch] of [visitUnaryExpr]; [None] when no case matches. *)
Definition unary_switch (ty : TypeValue) (right : Value) : option Value :=
  if type_is ty MINUS then Some (js_neg (ToNumber right))
  else if type_is ty BANG then Some (VBoolean (negb (isTruthy right)))
  else None.

Definition visitUnaryExpr (evaluate : Expr -> option Value)
    (operator : Token) (right : Expr) : option Value :=
  match evaluate right with
  | Some r =>
      Some match unary_switch (Token.type operator) r with
           | Some v => v
           | None => VUndefined
           end
  | None => None
  end.

(** The [switch] of [visitBinaryExpr]; [None] when no case matches. *)
Definition binary_switch (ty : TypeValue) (l r : Value) : option Value :=
  if type_is ty GREATER then Some (js_gt l r)
  else if type_is ty GREATER_EQUAL then Some (js_ge l r)
  else if type_is ty LESS then Some (js_lt l r)
  else if type_is ty LESS_EQUAL then Some (js_le l r)
  else if type_is ty BANG_EQUAL then Some (VBoolean (negb (IsStrictlyEqual l r)))
  else if type_is ty EQUAL_EQUAL then Some (VBoolean (IsStrictlyEqual l r))
  else if type_is ty MINUS then Some (js_sub l r)
  else if type_is ty SLASH then Some (js_div l r)
  else if type_is ty STAR then Some (js_add l r)
  else if type_is ty PLUS then Some (js_add l r)
  else None.

Definition visitBinaryExpr (evaluate : Expr -> option Value)
    (left : Expr) (operator : Token) (right : Expr) : option Value :=
  match evaluate left with
  | Some l =>
      match evaluate right with
      | Some r =>
          Some match binary_switch (Token.type operator) l r with
               | Some v => v
               | None => VUndefined
               end
      | None => None
      end
  | None => None
  end.

(** [expr.accept(visitor)] *)
Definition accept (evaluate : Expr -> option Value) (expr : Expr) : option Value :=
  match expr with
  | Binary l op r => visitBinaryExpr evaluate l op r
  | Grouping _ => visitGroupingExpr evaluate expr
  | Literal v => visitLiteralExpr v
  | Unary op r => visitUnaryExpr evaluate op r
  end.

(** [evaluate(expr) { return expr.accept(this) }], with a bound on the depth
    of the calls: [None] when the bound is reached before a value is
    returned. *)
Fixpoint evaluate (fuel : nat) (expr : Expr) : option Value :=
  match fuel with
  | O => None
  | S fuel' => accept (evaluate fuel') expr
  end.

End Interpreter.

(** ** The process-wide state: the [hadError] flag and the two output streams *)

Record World : Type := mkWorld {
  hadError : bool;
  stdout : list string;
  stderr : list string
}.

Definition initial_world : World :=
  {| hadError := false; stdout := []; stderr := [] |}.

Definition console_log (text : string) (w : World) : World :=
  {| hadError := hadError w; stdout := (stdout w ++ [text])%list; stderr := stderr w |}.

Definition console_error (text : string) (w : World) : World :=
  {| hadError := hadError w; stdout := stdout w; stderr := (stderr w ++ [text])%list |}.

Definition report (line : nat) (where_ message : string) (w : World) : World :=
  let w := console_error
             ("[line " ++ JsString.of_nat line ++ "] Error" ++ where_ ++ ": " ++ message) w in
  {| hadError := true; stdout := stdout w; stderr := stderr w |}.

Definition error (line : nat) (message : string) (w : World) : World :=
  report line "" message w.

(** ** Scanner *)

Module Scanner.

Definition KEYWORDS : list (string * TokenType) :=
  [ ("and", AND); ("class", CLASS); ("else", ELSE); ("false", FALSE);
    ("for", FOR); ("fun", FUN); ("if", IF); ("nil", NIL); ("or", OR);
    ("print", PRINT); ("return", RETURN); ("super", SUPER); ("this", THIS);
    ("true", TRUE); ("var", VAR); ("while", WHILE) ].

(** The property names every object inherits from [Object.prototype]. *)
Definition Object_prototype_keys : list string :=
  [ "constructor"; "__defineGetter__"; "__defineSetter__"; "hasOwnProperty";
    "__lookupGetter__"; "__lookupSetter__"; "isPrototypeOf";
    "propertyIsEnumerable"; "toString"; "valueOf"; "__proto__";
    "toLocaleString" ].

Fixpoint own_property (text : string) (table : list (string * TokenType))
  : option TokenType :=
  match table with
  | (k, v) :: rest => if String.eqb k text then Some v else own_property text rest
  | [] => None
  end.

(** [Scanner.KEYWORDS[text]]: an own property, else an inherited one, else
    [undefined] ([None]). *)
Definition KEYWORDS_get (text : string) : option TypeValue :=
  match own_property text KEYWORDS with
  | Some t => Some (Kind t)
  | None =>
      if existsb (String.eqb text) Object_prototype_keys
      then Some (PrototypeMember text)
      else None
  end.

Record t : Type := mk {
  source : string;
  tokens : list Token;
  start : nat;
  current : nat;
  line : nat
}.

Definition new (source : string) : t :=
  {| source := source; tokens := []; start := 0; current := 0; line := 1 |}.

Definition set_start (n : nat) (sc : t) : t :=
  {| source := source sc; tokens := tokens sc; start := n;
     current := current sc; line := line sc |}.

Definition set_current (n : nat) (sc : t) : t :=
  {| source := source sc; tokens := tokens sc; start := start sc;
     current := n; line := line sc |}.

Definition set_line (n : nat) (sc : t) : t :=
  {| source := source sc; tokens := tokens sc; start := start sc;
     current := current sc; line := n |}.

Definition push (tok : Token) (sc : t) : t :=
  {| source := source sc; tokens := (tokens sc ++ [tok])%list; start := start sc;
     current := current sc; line := line sc |}.

Definition isAtEnd (sc : t) : bool :=
  (String.length (source sc) <=? current sc)%nat.

(** [return this.source[this.current++]] *)
Definition advance (sc : t) : option ascii * t :=
  (JsString.at_index (source sc) (current sc), set_current (S (current sc)) sc).

Definition NUL : ascii := "000"%char.
Definition LF : ascii := "010"%char.
Definition CR : ascii := "013"%char.
Definition TAB : ascii := "009"%char.
Definition QUOTE : ascii := "034"%char.

Definition peek (sc : t) : ascii :=
  if isAtEnd sc then NUL
  else match JsString.at_index (source sc) (current sc) with
       | Some c => c
       | None => NUL
       end.

Definition peekNext (sc : t) : ascii :=
  if (String.length (source sc) <=? current sc + 1)%nat then NUL
  else match JsString.at_index (source sc) (current sc + 1) with
       | Some c => c
       | None => NUL
       end.

Definition match_ (expected : ascii) (sc : t) : bool * t :=
  if isAtEnd sc then (false, sc)
  else
    match JsString.at_index (source sc) (current sc) with
    | Some c =>
        if Ascii.eqb c expected then (true, set_current (S (current sc)) sc)
        else (false, sc)
    | None => (false, sc)
    end.

Definition addToken (type : TypeValue) (literal : Value) (sc : t) : t :=
  let text := JsString.substring (start sc) (current sc) (source sc) in
  push (Token.mk type text literal (line sc)) sc.

Definition isDigit (c : ascii) : bool :=
  (Ascii.leb "0" c && Ascii.leb c "9")%char.

Definition isAlpha (c : ascii) : bool :=
  ((Ascii.leb "a" c && Ascii.leb c "z") ||
   (Ascii.leb "A" c && Ascii.leb c "Z") ||
   Ascii.eqb c "_")%char.

Definition isAlphaNumeric (c : ascii) : bool := isAlpha c || isDigit c.

(** [while (cond) body], at most [fuel] tests of the condition. *)
Fixpoint while (fuel : nat) (cond : t -> bool) (body : t -> t) (sc : t) : option t :=
  match fuel with
  | O => None
  | S fuel' => if cond sc then while fuel' cond body (body sc) else Some sc
  end.

Definition skip (sc : t) : t := snd (advance sc).

Definition string_ (fuel : nat) (sc : t) (w : World) : option (t * World) :=
  match while fuel
          (fun s => negb (Ascii.eqb (peek s) QUOTE) && negb (isAtEnd s))
          (fun s => skip (if Ascii.eqb (peek s) LF then set_line (S (line s)) s else s))
          sc with
  | Some sc =>
      if isAtEnd sc then Some (sc, error (line sc) "Unterminated string." w)
      else
        let sc := skip sc in
        let value := JsString.substring (start sc + 1) (current sc - 1) (source sc) in
        Some (addToken (Kind STRING) (VString value) sc, w)
  | None => None
  end.

Definition identifier (fuel : nat) (sc : t) : option t :=
  match while fuel (fun s => isAlphaNumeric (peek s)) skip sc with
  | Some sc =>
      let text := JsString.substring (start sc) (current sc) (source sc) in
      let type :=
        match KEYWORDS_get text with
        | Some ty => ty
        | None => Kind IDENTIFIER
        end in
      Some (addToken type VNull sc)
  | None => None
  end.

Definition number (fuel : nat) (sc : t) : option t :=
  match while fuel (fun s => isDigit (peek s)) skip sc with
  | Some sc =>
      let fraction :=
        if Ascii.eqb (peek sc) "." && isDigit (peekNext sc)
        then while fuel (fun s => isDigit (peek s)) skip (skip sc)
        else Some sc in
      match fraction with
      | Some sc =>
          let text := JsString.substring (start sc) (current sc) (source sc) in
          Some (addToken (Kind NUMBER) (VNumber (ToNumber (VString text))) sc)
      | None => None
      end
  | None => None
  end.

(** [c === ch], for the [c] that [advance] returned. *)
Definition char_is (c : option ascii) (ch : ascii) : bool :=
  match c with
  | Some c' => Ascii.eqb c' ch
  | None => false
  end.

Definition scanToken (fuel : nat) (sc : t) (w : World) : option (t * World) :=
  let '(c, sc) := advance sc in
  let add (ty : TokenType) := Some (addToken (Kind ty) VNull sc, w) in
  let add2 (ty2 ty1 : TokenType) :=
    let '(m, sc) := match_ "=" sc in
    Some (addToken (Kind (if m then ty2 else ty1)) VNull sc, w) in
  if char_is c "(" then add LEFT_PAREN
  else if char_is c ")" then add RIGHT_PAREN
  else if char_is c "{" then add LEFT_BRACE
  else if char_is c "}" then add RIGHT_BRACE
  else if char_is c "," then add COMMA
  else if char_is c "." then add DOT
  else if char_is c "-" then add MINUS
  else if char_is c "+" then add PLUS
  else if char_is c ";" then add SEMICOLON
  else if char_is c "*" then add STAR
  else if char_is c "!" then add2 BANG_EQUAL BANG
  else if char_is c "=" then add2 EQUAL_EQUAL EQUAL
  else if char_is c "<" then add2 LESS_EQUAL LESS
  else if char_is c ">" then add2 GREATER_EQUAL GREATER
  else if char_is c "/" then
    let '(m, sc) := match_ "/" sc in
    if m then
      match while fuel (fun s => negb (Ascii.eqb (peek s) LF) && negb (isAtEnd s)) skip sc with
      | Some sc => Some (sc, w)
      | None => None
      end
    else Some (addToken (Kind SLASH) VNull sc, w)
  else if char_is c " " || char_is c CR || char_is c TAB then Some (sc, w)
  else if char_is c LF then Some (set_line (S (line sc)) sc, w)
  else if char_is c QUOTE then string_ fuel sc w
  else
    match c with
    | Some c' =>
        if isDigit c' then
          match number fuel sc with Some sc => Some (sc, w) | None => None end
        else if isAlpha c' then
          match identifier fuel sc with Some sc => Some (sc, w) | None => None end
        else Some (sc, error (line sc) "Unexpected character." w)
    | None => Some (sc, error (line sc) "Unexpected character." w)
    end.

(** The loop of [scanTokens]: at most [n] tests of [isAtEnd]. *)
Fixpoint scanLoop (n fuel : nat) (sc : t) (w : World) : option (t * World) :=
  match n with
  | O => None
  | S n' =>
      if negb (isAtEnd sc) then
        match scanToken fuel (set_start (current sc) sc) w with
        | Some (sc', w') => scanLoop n' fuel sc' w'
        | None => None
        end
      else Some (sc, w)
  end.

Definition scanTokens (fuel : nat) (sc : t) (w : World) : option (list Token * World) :=
  match scanLoop fuel fuel sc w with
  | Some (sc, w) =>
      let sc := push (Token.mk (Kind EOF) "" VNull (line sc)) sc in
      Some (tokens sc, w)
  | None => None
  end.

End Scanner.

(** ** Exceptions *)

Inductive Exception : Type :=
  | Error (message : string)
  | TypeError (message : string).

Definition message_of (e : Exception) : string :=
  match e with
  | Error m => m
  | TypeError m => m
  end.

(** ** Parser *)

Module Parser.

(** How a method of the parser ends: it returns (with the new index
    [current]), throws, or is still running when the bound on its loops and
    calls is reached. *)
Inductive Outcome (A : Type) : Type :=
  | Returned (a : A) (current : nat) (w : World)
  | Thrown (e : Exception) (w : World)
  | Unfinished.

Arguments Returned {A} a current w.
Arguments Thrown {A} e w.
Arguments Unfinished {A}.

Definition M (A : Type) : Type := nat -> World -> Outcome A.

Definition ret {A : Type} (a : A) : M A := fun cur w => Returned a cur w.

Definition bind {A B : Type} (m : M A) (k : A -> M B) : M B :=
  fun cur w =>
    match m cur w with
    | Returned a cur' w' => k a cur' w'
    | Thrown e w' => Thrown e w'
    | Unfinished => Unfinished
    end.

Definition throw {A : Type} (e : Exception) : M A := fun _ w => Thrown e w.

Definition out_of_fuel {A : Type} : M A := fun _ _ => Unfinished.

Notation "x <- m ;; k" := (bind m (fun x => k))
  (at level 61, m at next level, right associativity).
Notation "m ;;; k" := (bind m (fun _ => k))
  (at level 61, right associativity).

(** Reading a field of [undefined]. *)
Definition read_of_undefined (field : string) : Exception :=
  TypeError ("Cannot read properties of undefined (reading '" ++ field ++ "')").

Section WithTokens.

Variable tokens : list Token.

(** [this.tokens[i]]: [None] is [undefined]. *)
Definition token_at (i : nat) : option Token := nth_error tokens i.

Definition peek : M (option Token) :=
  fun cur w => Returned (token_at cur) cur w.

(** [this.tokens[this.current - 1]]; the index [-1] holds [undefined]. *)
Definition previous : M (option Token) :=
  fun cur w =>
    Returned (match cur with S i => token_at i | O => None end) cur w.

(** [token.type], for a [token] that may be [undefined]. *)
Definition type_of (token : option Token) : M TypeValue :=
  match token with
  | Some tok => ret (Token.type tok)
  | None => throw (read_of_undefined "type")
  end.

Definition isAtEnd : M bool :=
  tok <- peek ;; ty <- type_of tok ;; ret (type_is ty EOF).

Definition check (ty : TokenType) : M bool :=
  atEnd <- isAtEnd ;;
  if atEnd then ret false
  else tok <- peek ;; ty' <- type_of tok ;; ret (type_is ty' ty).

Definition increment : M unit := fun cur w => Returned tt (S cur) w.

Definition advance : M (option Token) :=
  atEnd <- isAtEnd ;;
  (if atEnd then ret tt else increment) ;;;
  previous.

Fixpoint match_ (types : list TokenType) : M bool :=
  match types with
  | ty :: rest =>
      c <- check ty ;;
      if c then advance ;;; ret true else match_ rest
  | [] => ret false
  end.

Definition report_ (line : nat) (where_ message : string) : M unit :=
  fun cur w => Returned tt cur (report line where_ message w).

(** [error(token, message)]: reports, and returns the error to throw. *)
Definition error_ (token : option Token) (message : string) : M Exception :=
  match token with
  | Some tok =>
      (if type_is (Token.type tok) EOF
       then report_ (Token.line tok) " at end" message
       else report_ (Token.line tok) (" at '" ++ Token.lexeme tok ++ "''") message) ;;;
      ret (Error "Parse error")
  | None => throw (read_of_undefined "type")
  end.

Definition consume (ty : TokenType) (message : string) : M (option Token) :=
  c <- check ty ;;
  if c then advance
  else tok <- peek ;; e <- error_ tok message ;; throw e.

(** [const operator = this.previous()] after a successful [match_]: the
    index is then positive and in range (lemma [match_true]), so the token
    is there.  With no token the source would build a node around
    [undefined]; a node of [Expr] has a token, and the model ends that
    case, which no run reaches, with a [TypeError]. *)
Definition previous_operator : M Token :=
  o <- previous ;;
  match o with
  | Some tok => ret tok
  | None => throw (read_of_undefined "type")
  end.

(** [this.previous().literal] *)
Definition previous_literal : M Value :=
  o <- previous ;;
  match o with
  | Some tok => ret (Token.literal tok)
  | None => throw (read_of_undefined "literal")
  end.

(** The loop of the four binary levels:
    [while (this.match(types)) { operator = previous(); right = operand();
    expr = new Binary(expr, operator, right) }], at most [n] tests. *)
Fixpoint binary_loop (n : nat) (types : list TokenType) (operand : M Expr)
    (expr : Expr) : M Expr :=
  match n with
  | O => out_of_fuel
  | S n' =>
      m <- match_ types ;;
      if m then
        operator <- previous_operator ;;
        right <- operand ;;
        binary_loop n' types operand (Binary expr operator right)
      else ret expr
  end.

Fixpoint expression (fuel : nat) : M Expr :=
  match fuel with
  | O => out_of_fuel
  | S f => equality f
  end

with equality (fuel : nat) : M Expr :=
  match fuel with
  | O => out_of_fuel
  | S f =>
      expr <- comparison f ;;
      binary_loop f [BANG_EQUAL; EQUAL_EQUAL] (comparison f) expr
  end

with comparison (fuel : nat) : M Expr :=
  match fuel with
  | O => out_of_fuel
  | S f =>
      expr <- term f ;;
      binary_loop f [GREATER; GREATER_EQUAL; LESS; LESS_EQUAL] (term f) expr
  end

with term (fuel : nat) : M Expr :=
  match fuel with
  | O => out_of_fuel
  | S f =>
      expr <- factor f ;;
      binary_loop f [MINUS; PLUS] (factor f) expr
  end

with factor (fuel : nat) : M Expr :=
  match fuel with
  | O => out_of_fuel
  | S f =>
      expr <- unary f ;;
      binary_loop f [SLASH; STAR] (unary f) expr
  end

with unary (fuel : nat) : M Expr :=
  match fuel with
  | O => out_of_fuel
  | S f =>
      m <- match_ [BANG; MINUS] ;;
      if m then
        operator <- previous_operator ;;
        right <- unary f ;;
        ret (Unary operator right)
      else primary f
  end

with primary (fuel : nat) : M Expr :=
  match fuel with
  | O => out_of_fuel
  | S f =>
      m <- match_ [FALSE] ;;
      if m then ret (Literal (VBoolean false)) else
      m <- match_ [TRUE] ;;
      if m then ret (Literal (VBoolean true)) else
      m <- match_ [NIL] ;;
      if m then ret (Literal VNull) else
      m <- match_ [NUMBER; STRING] ;;
      if m then value <- previous_literal ;; ret (Literal value) else
      m <- match_ [LEFT_PAREN] ;;
      if m then
        expr <- expression f ;;
        consume RIGHT_PAREN "Expect ')' after expression" ;;;
        ret (Grouping expr)
      else
        tok <- peek ;; e <- error_ tok "Expect expression" ;; throw e
  end.

(** [parse()]: [try { return this.expression() } catch (error) { return null }];
    [None] when the bound was reached, else the tree or [null] and the world. *)
Definition parse (fuel : nat) (w : World) : option (option Expr * World) :=
  match expression fuel 0 w with
  | Returned expr _ w' => Some (Some expr, w')
  | Thrown _ w' => Some (None, w')
  | Unfinished => None
  end.

End WithTokens.

End Parser.

(** ** The driver *)

(** A call of the driver returns normally, throws, ends the process by
    [exit(code)], or is still running when the bound is reached. *)
Inductive Completion : Type :=
  | Normal (w : World)
  | Throw (e : Exception) (w : World)
  | Exited (code : Z) (w : World)
  | OutOfFuel.

Module Json.

Definition hex_digit (n : nat) : ascii :=
  ascii_of_nat (if (n <? 10)%nat then 48 + n else 87 + n).

Definition esc (x : ascii) : string := String "\" (String x EmptyString).

(** One code unit inside [QuoteJSONString]. *)
Definition quote_char (c : ascii) : string :=
  let n := nat_of_ascii c in
  if (n =? 8)%nat then esc "b"
  else if (n =? 9)%nat then esc "t"
  else if (n =? 10)%nat then esc "n"
  else if (n =? 12)%nat then esc "f"
  else if (n =? 13)%nat then esc "r"
  else if (n =? 34)%nat then esc Scanner.QUOTE
  else if (n =? 92)%nat then esc "\"
  else if (n <? 32)%nat then
    String "\" (String "u" (String "0" (String "0"
      (String (hex_digit (n / 16)) (String (hex_digit (n mod 16)) EmptyString)))))
  else String c EmptyString.

Fixpoint quote_chars (s : string) : string :=
  match s with
  | String c r => quote_char c ++ quote_chars r
  | EmptyString => EmptyString
  end.

(** The text [console.log(JSON.stringify(value))] prints. *)
Definition stringify (value : Value) : string :=
  match value with
  | VUndefined => "undefined"
  | VNull => "null"
  | VBoolean b => if b then "true" else "false"
  | VNumber (S754_finite _ _ _ as x) | VNumber (S754_zero _ as x) => number_to_string x
  | VNumber _ => "null"
  | VString s => String Scanner.QUOTE (quote_chars s ++ String Scanner.QUOTE EmptyString)
  end.

End Json.

(** [interpret(expr)]: evaluates and prints; [expr] is [null] ([None]) when
    the parse failed, and [null.accept] throws. *)
Definition interpret (fuel : nat) (expr : option Expr) (w : World) : Completion :=
  match expr with
  | Some e =>
      match Interpreter.evaluate fuel e with
      | Some value => Normal (console_log (Json.stringify value) w)
      | None => OutOfFuel
      end
  | None => Throw (TypeError "Cannot read properties of null (reading 'accept')") w
  end.

Definition run (fuel : nat) (source : string) (w : World) : Completion :=
  match Scanner.scanTokens fuel (Scanner.new source) w with
  | Some (tokens, w) =>
      match Parser.parse tokens fuel w with
      | Some (expr, w) => interpret fuel expr w
      | None => OutOfFuel
      end
  | None => OutOfFuel
  end.

(** [runFile(path)], for the content read from [path]. *)
Definition runFile (fuel : nat) (content : string) (w : World) : Completion :=
  match run fuel content w with
  | Normal w => if hadError w then Exited 65 w else Normal w
  | other => other
  end.

(** [main()] with one script argument (the prompt of [runPrompt] and the
    usage error are other branches), and the exit code of the process:
    an exception leaves the [async] function as a rejection, which the
    [catch] handler prints before [exit(-1)]; with nothing left to run the
    process ends with code 0.  [None] when the bound was reached. *)
Definition main_script (fuel : nat) (content : string) : option (Z * World) :=
  match runFile fuel content initial_world with
  | Normal w => Some (0%Z, w)
  | Throw e w => Some ((-1)%Z, console_error (message_of e) w)
  | Exited code w => Some (code, w)
  | OutOfFuel => None
  end.

(** * Notions used in the statements *)

(** The specification's RuntimeValue: Number, String, Boolean or Nil. *)
Definition RuntimeValue (v : Value) : Prop := v <> VUndefined.

(** Truthiness in the specification's words: Nil and the Boolean [false] are
    falsy, every other value is truthy. *)
Definition spec_truthy (v : Value) : bool :=
  match v with
  | VNull => false
  | VBoolean false => false
  | _ => true
  end.

(** Equality in the specification's words: the same tag and equal payloads,
    Numbers by floating-point equality. *)
Definition spec_equal (l r : Value) : bool :=
  match l, r with
  | VNull, VNull => true
  | VBoolean a, VBoolean b => Bool.eqb a b
  | VNumber a, VNumber b => JsNumber.equal a b
  | VString a, VString b => String.eqb a b
  | _, _ => false
  end.

(** An operator token as the scanner builds it on line 1. *)
Definition op (ty : TokenType) (lexeme : string) : Token :=
  Token.mk (Kind ty) lexeme VNull 1.

Definition num (n : nat) : Value := VNumber (JsNumber.of_nat n).

(** The world after a run that printed [lines] and reported nothing. *)
Definition printed (lines : list string) : World :=
  {| hadError := false; stdout := lines; stderr := [] |}.

(** A String literal of the source text: the characters between quotes. *)
Definition quoted (s : string) : string :=
  String Scanner.QUOTE (s ++ String Scanner.QUOTE EmptyString).

Definition unary_operators : list TokenType := [BANG; MINUS].

Definition binary_operators : list TokenType :=
  [BANG_EQUAL; EQUAL_EQUAL; GREATER; GREATER_EQUAL; LESS; LESS_EQUAL;
   MINUS; PLUS; SLASH; STAR].

(** Every Unary and Binary node carries an operator of its list. *)
Fixpoint parser_operators (e : Expr) : Prop :=
  match e with
  | Binary l o r =>
      (exists ty, In ty binary_operators /\ Token.type o = Kind ty)
      /\ parser_operators l /\ parser_operators r
  | Grouping inner => parser_operators inner
  | Literal _ => True
  | Unary o r =>
      (exists ty, In ty unary_operators /\ Token.type o = Kind ty)
      /\ parser_operators r
  end.

(** At every node the [switch] of the visit method matches a case, whatever
    the operands' values. *)
Fixpoint switch_matches (e : Expr) : Prop :=
  match e with
  | Binary l o r =>
      (forall vl vr, Interpreter.binary_switch (Token.type o) vl vr <> None)
      /\ switch_matches l /\ switch_matches r
  | Grouping inner => switch_matches inner
  | Literal _ => True
  | Unary o r =>
      (forall v, Interpreter.unary_switch (Token.type o) v <> None)
      /\ switch_matches r
  end.

(** Nothing was printed on the standard output between two worlds. *)
Definition quiet (w w' : World) : Prop := stdout w' = stdout w.

Module ScannerInv.

Import Scanner.

Definition not_EOF (tok : Token) : Prop := Token.type tok <> Kind EOF.

(** The tokens pushed so far: none is the end-of-input token, none lies
    beyond the current line, and their lines never decrease. *)
Definition Inv (sc : t) : Prop :=
  Forall not_EOF (tokens sc) /\
  Forall (fun tok => Token.line tok <= line sc) (tokens sc) /\
  StronglySorted le (map Token.line (tokens sc)).

(** From [sc] to [sc']: the same source, the cursor not moved back, the
    invariant kept. *)
Definition advances (sc sc' : t) : Prop :=
  source sc' = source sc /\ current sc <= current sc' /\ (Inv sc -> Inv sc').

(** The bound [fuel] is above the length of the source. *)
Definition enough (fuel : nat) (sc : t) : Prop := String.length (source sc) < fuel.

End ScannerInv.

Module ParserInv.

Import Parser.

(** Every tree the method returns satisfies [P]. *)
Definition yields (P : Expr -> Prop) (m : M Expr) : Prop :=
  forall cur w e cur' w', m cur w = Returned e cur' w' -> P e.

(** The method prints nothing on the standard output. *)
Definition silent {A : Type} (m : M A) : Prop :=
  forall cur w,
    match m cur w with
    | Returned _ _ w' => quiet w w'
    | Thrown _ w' => quiet w w'
    | Unfinished => True
    end.

End ParserInv.

Fixpoint no_grouping (e : Expr) : bool :=
  match e with
  | Binary l _ r => no_grouping l && no_grouping r
  | Grouping _ => false
  | Literal _ => true
  | Unary _ r => no_grouping r
  end.

Fixpoint height (e : Expr) : nat :=
  match e with
  | Binary l _ r => S (Nat.max (height l) (height r))
  | Grouping inner => S (height inner)
  | Literal _ => 1
  | Unary _ r => S (height r)
  end.

(** ** AstPrinter *)

Module AstPrinter.

(** [parenthesize(name, ...exprs)], for the texts of the sub-expressions in
    order; [None] when printing one of them threw. *)
Fixpoint parenthesize_parts (s : string) (parts : list (option string)) : option string :=
  match parts with
  | Some text :: rest => parenthesize_parts (s ++ " " ++ text) rest
  | None :: _ => None
  | [] => Some (s ++ ")")
  end.

Definition parenthesize (name : string) (parts : list (option string)) : option string :=
  parenthesize_parts ("(" ++ name) parts.

(** [visitLiteralExpr]: ['nil'] for [null], else [expr.value.toString()],
    which throws a TypeError ([None]) on [undefined]. *)
Definition visitLiteralExpr (value : Value) : option string :=
  match value with
  | VNull => Some "nil"
  | VUndefined => None
  | VBoolean b => Some (if b then "true" else "false")
  | VNumber x => Some (number_to_string x)
  | VString s => Some s
  end.

(** [print(expr) { return expr.accept(this) }]; the visit of a Grouping
    descends into [expr.expr]. *)
Fixpoint print (expr : Expr) : option string :=
  match expr with
  | Binary l o r => parenthesize (Token.lexeme o) [print l; print r]
  | Grouping inner => parenthesize "group" [print inner]
  | Literal v => visitLiteralExpr v
  | Unary o r => parenthesize (Token.lexeme o) [print r]
  end.

End AstPrinter.

(** ** [Parser.synchronize] *)

Module Synchronize.

Import Parser.

(** The [case] labels of the [switch] in [synchronize]. *)
Definition statement_start (ty : TypeValue) : bool :=
  type_is ty CLASS || type_is ty FOR || type_is ty FUN || type_is ty IF
  || type_is ty PRINT || type_is ty RETURN || type_is ty VAR || type_is ty WHILE.

Section WithTokens.

Variable tokens : list Token.

(** The loop of [synchronize], at most [n] tests of [isAtEnd]. *)
Fixpoint synchronize_loop (n : nat) : M unit :=
  match n with
  | O => out_of_fuel
  | S n' =>
      atEnd <- isAtEnd tokens ;;
      if atEnd then ret tt
      else
        prev <- previous tokens ;;
        ty <- type_of prev ;;
        if type_is ty SEMICOLON then ret tt
        else
          tok <- peek tokens ;;
          ty' <- type_of tok ;;
          if statement_start ty' then ret tt
          else advance tokens ;;; synchronize_loop n'
  end.

Definition synchronize (fuel : nat) : M unit :=
  advance tokens ;;; synchronize_loop fuel.

End WithTokens.

End Synchronize.

(** ** The prompt *)

(** [line.trim()] *)
Definition trim (s : string) : string := trim_right (trim_left s).

(** The handler of the ['line'] event in [runPrompt]. *)
Definition on_line (fuel : nat) (line : string) (w : World) : Completion :=
  let w := console_log "line" w in
  if String.eqb (trim line) "" then Exited 0 w
  else run fuel line w.

(** The ['line'] events of a session, one after the other.  The handler
    runs from the event loop, outside the [catch] of [main]: what it throws
    is uncaught and ends the session. *)
Fixpoint runPrompt (fuel : nat) (lines : list string) (w : World) : Completion :=
  match lines with
  | line :: rest =>
      match on_line fuel line w with
      | Normal w' => runPrompt fuel rest w'
      | other => other
      end
  | [] => Normal w
  end.

(** ** Notions for the scanner's tokens *)

Module ScanNotions.

Import Scanner.

(** The line feeds of a text, and those among its first [n] code units. *)
Fixpoint newlines (s : string) : nat :=
  match s with
  | String c r => (if Ascii.eqb c LF then 1 else 0) + newlines r
  | EmptyString => 0
  end.

Fixpoint newlines_upto (n : nat) (s : string) : nat :=
  match n with
  | O => 0
  | S n' =>
      newlines_upto n' s +
      match JsString.at_index s n' with
      | Some c => if Ascii.eqb c LF then 1 else 0
      | None => 0
      end
  end.

(** The line counter counts the line feeds stepped over. *)
Definition balanced (sc : t) : Prop :=
  line sc = 1 + newlines_upto (current sc) (source sc).

(** What [scanToken] calls [addToken] with, [c] being the character the
    call began with and [sc] the scanner at the call of [addToken]; for a
    STRING, [sc] is one step after a scanner [before] that had the property
    [P] and stood on the closing quote. *)
Inductive token_form (P : t -> Prop) (c : option ascii) (sc : t)
  : TypeValue -> Value -> Prop :=
  | form_plain (ty : TypeValue) :
      ty <> Kind EOF -> ty <> Kind NUMBER -> ty <> Kind STRING ->
      token_form P c sc ty VNull
  | form_number :
      token_form P c sc (Kind NUMBER)
        (VNumber (string_to_number
                    (JsString.substring (start sc) (current sc) (source sc))))
  | form_string (before : t) :
      c = Some QUOTE -> sc = skip before -> P before ->
      peek before = QUOTE -> isAtEnd before = false ->
      token_form P c sc (Kind STRING)
        (VString (JsString.substring (start sc + 1) (current sc - 1) (source sc))).

(** The literal of a token, by its type: the Number of the lexeme for a
    NUMBER, the characters between the quotes of the lexeme for a STRING,
    [null] for every other token. *)
Definition literal_decodes (tok : Token) : Prop :=
  match Token.type tok with
  | Kind NUMBER => Token.literal tok = VNumber (string_to_number (Token.lexeme tok))
  | Kind STRING =>
      exists s, Token.literal tok = VString s /\ Token.lexeme tok = quoted s
  | _ => Token.literal tok = VNull
  end.

(** What the scan of a text promises of a token it pushed: the lexeme is a
    non-empty piece of the text, the literal is decoded from the lexeme, the
    type is not the end-of-input type, and the line lies between 1 and one
    more than the line feeds of the text. *)
Definition token_of (src : string) (tok : Token) : Prop :=
  (exists a b, Token.lexeme tok = JsString.substring a b src) /\
  Token.lexeme tok <> EmptyString /\
  literal_decodes tok /\
  Token.type tok <> Kind EOF /\
  1 <= Token.line tok <= 1 + newlines src.

(** The scanner inside one call of [scanToken] that began at the index [p],
    on the character [c], with the tokens [toks]. *)
Definition within_token (src : string) (p : nat) (c : option ascii)
    (toks : list Token) (sc : t) : Prop :=
  source sc = src /\ start sc = p /\ tokens sc = toks /\
  JsString.at_index src p = c /\
  p < current sc <= String.length src /\ balanced sc.

(** The scanner between two calls of [scanToken]. *)
Definition between_tokens (src : string) (sc : t) : Prop :=
  source sc = src /\ current sc <= String.length src /\ balanced sc /\
  Forall (token_of src) (tokens sc) /\
  List.length (tokens sc) <= current sc.

(** The scanner after a call of [scanToken] that began at [p] with the
    tokens [toks]: at most one token more. *)
Definition after_token (src : string) (p : nat) (toks : list Token) (sc : t) : Prop :=
  source sc = src /\ p < current sc <= String.length src /\ balanced sc /\
  (tokens sc = toks \/
   exists tok, tokens sc = (toks ++ [tok])%list /\ token_of src tok).

(** The world after at most one call of [error]. *)
Definition said (w w' : World) : Prop :=
  w' = w \/ exists l m, w' = error l m w.

(** The world after some calls of [report]. *)
Inductive reported : World -> World -> Prop :=
  | reported_none (w : World) : reported w w
  | reported_more (w w' : World) (line : nat) (where_ message : string) :
      reported w w' -> reported w (report line where_ message w').

End ScanNotions.

(** ** Notions for the parser's trees *)

Module ParseNotions.

Import Parser.


(** The method leaves the world as it is when it returns, and reports at
    most once when it throws. *)
Definition tidy {A : Type} (m : M A) : Prop :=
  forall cur w,
    match m cur w with
    | Returned _ _ w' => w' = w
    | Thrown _ w' => w' = w \/ exists line where_ message, w' = report line where_ message w
    | Unfinished => True
    end.

(** The level of a binary operator in the grammar, from equality (1) to
    factor (4); a Unary node has level 5, a literal or a group level 6. *)
Definition operator_level (ty : TypeValue) : nat :=
  if type_is ty BANG_EQUAL || type_is ty EQUAL_EQUAL then 1
  else if type_is ty GREATER || type_is ty GREATER_EQUAL
          || type_is ty LESS || type_is ty LESS_EQUAL then 2
  else if type_is ty MINUS || type_is ty PLUS then 3
  else if type_is ty SLASH || type_is ty STAR then 4
  else 0.

Definition expr_level (e : Expr) : nat :=
  match e with
  | Binary _ o _ => operator_level (Token.type o)
  | Unary _ _ => 5
  | Grouping _ | Literal _ => 6
  end.

(** Precedence and associativity: the left operand of a Binary node binds
    at least as tightly as its operator, the right operand more tightly; the
    operand of a Unary node is a Unary node, a literal or a group. *)
Fixpoint well_nested (e : Expr) : Prop :=
  match e with
  | Binary l o r =>
      1 <= operator_level (Token.type o) /\
      operator_level (Token.type o) <= expr_level l /\
      operator_level (Token.type o) < expr_level r /\
      well_nested l /\ well_nested r
  | Grouping inner => well_nested inner
  | Literal _ => True
  | Unary o r => 5 <= expr_level r /\ well_nested r
  end.

Definition nested_at (k : nat) (e : Expr) : Prop :=
  well_nested e /\ k <= expr_level e.

(** The token a Literal node was built from. *)
Definition literal_token (tok : Token) (v : Value) : Prop :=
  (Token.type tok = Kind FALSE /\ v = VBoolean false) \/
  (Token.type tok = Kind TRUE /\ v = VBoolean true) \/
  (Token.type tok = Kind NIL /\ v = VNull) \/
  ((Token.type tok = Kind NUMBER \/ Token.type tok = Kind STRING) /\
   v = Token.literal tok).

(** The tokens a tree was built from, from left to right. *)
Inductive spells : Expr -> list Token -> Prop :=
  | spells_literal (tok : Token) (v : Value) :
      literal_token tok v -> spells (Literal v) [tok]
  | spells_grouping (lp rp : Token) (e : Expr) (toks : list Token) :
      Token.type lp = Kind LEFT_PAREN -> Token.type rp = Kind RIGHT_PAREN ->
      spells e toks -> spells (Grouping e) (lp :: toks ++ [rp])%list
  | spells_unary (o : Token) (r : Expr) (toks : list Token) :
      spells r toks -> spells (Unary o r) (o :: toks)
  | spells_binary (l r : Expr) (o : Token) (tl tr : list Token) :
      spells l tl -> spells r tr -> spells (Binary l o r) (tl ++ o :: tr)%list.

(** Every tree the method returns spells the tokens it stepped over. *)
Definition consumes (tokens : list Token) (m : M Expr) : Prop :=
  forall cur w e cur' w',
    m cur w = Returned e cur' w' ->
    exists toks, spells e toks /\ skipn cur tokens = (toks ++ skipn cur' tokens)%list.

(** No literal of the tree is [undefined]. *)
Fixpoint defined_literals (e : Expr) : Prop :=
  match e with
  | Binary l _ r => defined_literals l /\ defined_literals r
  | Grouping inner => defined_literals inner
  | Literal v => RuntimeValue v
  | Unary _ r => defined_literals r
  end.

End ParseNotions.

(** ** Notions for [synchronize] *)

Module SyncNotions.

Import Parser.

(** Where [synchronize] stops: on the end-of-input token, just after a
    semicolon, or before a token that begins a statement. *)
Definition boundary (tokens : list Token) (cur : nat) : Prop :=
  (exists tok, token_at tokens cur = Some tok /\ Token.type tok = Kind EOF) \/
  (exists i tok, cur = S i /\ token_at tokens i = Some tok /\
                 Token.type tok = Kind SEMICOLON) \/
  (exists tok, token_at tokens cur = Some tok /\
               Synchronize.statement_start (Token.type tok) = true).

End SyncNotions.

(** * Properties *)

(** ** The evaluator, one call deep *)

Section EvaluateStep.

Import Interpreter.

Variable fuel : nat.

Lemma evaluate_literal (v : Value) : evaluate (S fuel) (Literal v) = Some v.
Proof. reflexivity. Qed.

Lemma evaluate_unary (o : Token) (e : Expr) (v : Value) :
  evaluate fuel e = Some v ->
  evaluate (S fuel) (Unary o e) =
  Some match unary_switch (Token.type o) v with Some r => r | None => VUndefined end.
Proof. intros H. cbn. unfold visitUnaryExpr. now rewrite H. Qed.

Lemma evaluate_binary (o : Token) (l r : Expr) (vl vr : Value) :
  evaluate fuel l = Some vl ->
  evaluate fuel r = Some vr ->
  evaluate (S fuel) (Binary l o r) =
  Some match binary_switch (Token.type o) vl vr with Some v => v | None => VUndefined end.
Proof. intros Hl Hr. cbn. unfold visitBinaryExpr. now rewrite Hl, Hr. Qed.

End EvaluateStep.

(** A larger bound never changes a value already returned. *)
Lemma evaluate_mono (fuel : nat) :
  forall (e : Expr) (v : Value),
    Interpreter.evaluate fuel e = Some v ->
    Interpreter.evaluate (S fuel) e = Some v.
Proof.
  induction fuel as [|fuel IH]; intros e v H; [discriminate|].
  destruct e as [l o r| inner | lit | o r]; cbn in H |- *.
  - unfold Interpreter.visitBinaryExpr in *.
    destruct (Interpreter.evaluate fuel l) as [vl|] eqn:El; [|discriminate].
    destruct (Interpreter.evaluate fuel r) as [vr|] eqn:Er; [|discriminate].
    apply IH in El. apply IH in Er. cbn in El, Er.
    now rewrite El, Er.
  - unfold Interpreter.visitGroupingExpr in *. apply IH in H. exact H.
  - exact H.
  - unfold Interpreter.visitUnaryExpr in *.
    destruct (Interpreter.evaluate fuel r) as [vr|] eqn:Er; [|discriminate].
    apply IH in Er. cbn in Er. now rewrite Er.
Qed.

Lemma evaluate_mono_le (fuel fuel' : nat) (e : Expr) (v : Value) :
  fuel <= fuel' ->
  Interpreter.evaluate fuel e = Some v -> Interpreter.evaluate fuel' e = Some v.
Proof.
  induction 1 as [|m Hle IH]; [trivial|]. intros H. apply evaluate_mono. auto.
Qed.

(** A tree without Grouping nodes evaluates to a value, within a bound
    above its height. *)
Lemma evaluate_total (e : Expr) :
  no_grouping e = true -> exists v, Interpreter.evaluate (height e) e = Some v.
Proof.
  induction e as [l IHl o r IHr | inner IH | v | o r IHr]; cbn [no_grouping height].
  - intros H. apply andb_prop in H as [Hl Hr].
    destruct (IHl Hl) as (vl & El). destruct (IHr Hr) as (vr & Er).
    eexists. apply evaluate_binary.
    + apply (evaluate_mono_le (height l)); [lia | exact El].
    + apply (evaluate_mono_le (height r)); [lia | exact Er].
  - discriminate.
  - intros _. now exists v.
  - intros H. destruct (IHr H) as (vr & Er).
    eexists. apply evaluate_unary. exact Er.
Qed.

(** ** Multiplication *)

(** C1 (the code departs from it): the case [STAR] of [visitBinaryExpr]
    returns [left + right], as the case [PLUS] does.  The tree of [2 * 3]
    evaluates to Number 5, which is not the product 6, and the script
    [2 * 3] prints 5. *)
Theorem star_evaluates_to_the_sum :
  (forall l r : Value,
      Interpreter.binary_switch (Kind STAR) l r = Interpreter.binary_switch (Kind PLUS) l r)
  /\ Interpreter.evaluate 2 (Binary (Literal (num 2)) (op STAR "*") (Literal (num 3)))
     = Some (num 5)
  /\ num 5 <> VNumber (JsNumber.mul (JsNumber.of_nat 2) (JsNumber.of_nat 3))
  /\ main_script 50 "2 * 3" = Some (0%Z, printed ["5"]).
Proof.
  split; [reflexivity|].
  split; [vm_compute; reflexivity|].
  split; [vm_compute; discriminate|].
  vm_compute; reflexivity.
Qed.

(** ** Grouping *)

(** C2 (the code departs from it): [visitGroupingExpr] evaluates the Grouping
    node itself, not its inner expression, so the evaluation of a Grouping
    calls itself without end (until the host's call stack overflows):
    whatever the bound, no value is returned, also when the inner expression
    is a literal. *)
Theorem grouping_never_returns :
  forall (fuel : nat) (inner : Expr),
    Interpreter.evaluate fuel (Grouping inner) = None.
Proof.
  induction fuel as [|fuel IH]; intros inner; [reflexivity|].
  cbn. unfold Interpreter.visitGroupingExpr. apply IH.
Qed.

(** The script [(1)] never prints: no bound is enough for it. *)
Example grouping_script :
  forall fuel : nat, main_script (20 + fuel) "(1)" = None.
Proof.
  intros fuel. unfold main_script, runFile, run.
  replace (Scanner.scanTokens (20 + fuel) (Scanner.new "(1)") initial_world)
    with (Some ([op LEFT_PAREN "("; Token.mk (Kind NUMBER) "1" (num 1) 1;
                 op RIGHT_PAREN ")"; Token.mk (Kind EOF) "" VNull 1], initial_world))
    by (vm_compute; reflexivity).
  replace (Parser.parse [op LEFT_PAREN "("; Token.mk (Kind NUMBER) "1" (num 1) 1;
                         op RIGHT_PAREN ")"; Token.mk (Kind EOF) "" VNull 1]
             (20 + fuel) initial_world)
    with (Some (Some (Grouping (Literal (num 1))), initial_world))
    by (vm_compute; reflexivity).
  unfold interpret.
  assert (H : forall n, Interpreter.evaluate n (Grouping (Literal (num 1))) = None).
  { induction n as [|n IH]; [reflexivity | exact IH]. }
  now rewrite H.
Qed.

(** ** Addition *)

(** C3 as stated fails: the tree of [1 + "a"] evaluates to the String
    ["1a"], and the script prints it and ends with code 0. *)
Lemma plus_number_string_returns :
  Interpreter.evaluate 2
    (Binary (Literal (num 1)) (op PLUS "+") (Literal (VString "a")))
    = Some (VString "1a")
  /\ main_script 50 (String "1" (String "+" (String Scanner.QUOTE
                      (String "a" (String Scanner.QUOTE EmptyString)))))
     = Some (0%Z, printed [String Scanner.QUOTE (String "1" (String "a"
                            (String Scanner.QUOTE EmptyString)))]).
Proof. split; vm_compute; reflexivity. Qed.

(** C3 (amended): for a Binary expression with operator [+] whose operands
    evaluate to values, evaluation returns a value and never fails: the
    Number sum of two Numbers, the concatenation of two Strings, and for
    every other combination what the host's [+] gives, the concatenation of
    the operands' texts when one of them is a String, else the sum of the
    operands converted to Numbers. *)
Theorem plus_returns_sum_or_concatenation :
  forall (fuel : nat) (o : Token) (l r : Expr) (vl vr : Value),
    Token.type o = Kind PLUS ->
    Interpreter.evaluate fuel l = Some vl ->
    Interpreter.evaluate fuel r = Some vr ->
    exists v,
      Interpreter.evaluate (S fuel) (Binary l o r) = Some v /\
      (forall a b, vl = VNumber a -> vr = VNumber b -> v = VNumber (JsNumber.add a b)) /\
      (forall a b, vl = VString a -> vr = VString b -> v = VString (a ++ b)) /\
      (Type_of vl = TString \/ Type_of vr = TString ->
         v = VString (ToString vl ++ ToString vr)) /\
      (Type_of vl <> TString -> Type_of vr <> TString ->
         v = VNumber (JsNumber.add (ToNumber vl) (ToNumber vr))).
Proof.
  intros fuel o l r vl vr Ho Hl Hr.
  exists (js_add vl vr). split.
  - rewrite (evaluate_binary fuel o l r vl vr Hl Hr), Ho. reflexivity.
  - repeat split.
    + intros a b -> ->. reflexivity.
    + intros a b -> ->. reflexivity.
    + intros [H|H]; destruct vl, vr; cbn in H; try discriminate; reflexivity.
    + intros H1 H2; destruct vl, vr; cbn in H1, H2; try congruence; reflexivity.
Qed.

Lemma plus_returns_sum_or_concatenation_witness :
  exists v,
    Interpreter.evaluate 2
      (Binary (Literal (VBoolean true)) (op PLUS "+") (Literal (num 1))) = Some v /\
    (forall a b, VBoolean true = VNumber a -> num 1 = VNumber b ->
       v = VNumber (JsNumber.add a b)) /\
    (forall a b, VBoolean true = VString a -> num 1 = VString b -> v = VString (a ++ b)) /\
    (Type_of (VBoolean true) = TString \/ Type_of (num 1) = TString ->
       v = VString (ToString (VBoolean true) ++ ToString (num 1))) /\
    (Type_of (VBoolean true) <> TString -> Type_of (num 1) <> TString ->
       v = VNumber (JsNumber.add (ToNumber (VBoolean true)) (ToNumber (num 1)))).
Proof.
  apply (plus_returns_sum_or_concatenation 1 (op PLUS "+")
           (Literal (VBoolean true)) (Literal (num 1))); reflexivity.
Defined.

(** ** Number-only operators *)

(** C4 as stated fails: the tree of [-"a"] evaluates to the Number NaN, the
    tree of ["b" > "a"] to the Boolean [true], and the script [-true] prints
    -1 and ends with code 0. *)
Lemma number_operators_coerce :
  Interpreter.evaluate 2 (Unary (op MINUS "-") (Literal (VString "a")))
    = Some (VNumber NaN)
  /\ Interpreter.evaluate 2
       (Binary (Literal (VString "b")) (op GREATER ">") (Literal (VString "a")))
     = Some (VBoolean true)
  /\ main_script 50 "-true" = Some (0%Z, printed ["-1"]).
Proof. repeat split; vm_compute; reflexivity. Qed.

(** C4 (amended): for every application of a Number-only operator whose
    operands evaluate to values, Numbers or not, evaluation returns a value
    and never fails: unary [-] negates the operand converted to a Number,
    [-] and [/] subtract and divide the operands converted to Numbers (the
    result may be NaN), and the comparisons return the Boolean of the host's
    comparison of the operands. *)
Theorem number_operators_return_coerced :
  forall (fuel : nat) (o : Token) (l r : Expr) (vl vr : Value),
    Interpreter.evaluate fuel l = Some vl ->
    Interpreter.evaluate fuel r = Some vr ->
    (Token.type o = Kind MINUS ->
       Interpreter.evaluate (S fuel) (Unary o r)
         = Some (VNumber (JsNumber.neg (ToNumber vr))) /\
       Interpreter.evaluate (S fuel) (Binary l o r)
         = Some (VNumber (JsNumber.sub (ToNumber vl) (ToNumber vr)))) /\
    (Token.type o = Kind SLASH ->
       Interpreter.evaluate (S fuel) (Binary l o r)
         = Some (VNumber (JsNumber.div (ToNumber vl) (ToNumber vr)))) /\
    (Token.type o = Kind GREATER ->
       Interpreter.evaluate (S fuel) (Binary l o r) = Some (js_gt vl vr)) /\
    (Token.type o = Kind GREATER_EQUAL ->
       Interpreter.evaluate (S fuel) (Binary l o r) = Some (js_ge vl vr)) /\
    (Token.type o = Kind LESS ->
       Interpreter.evaluate (S fuel) (Binary l o r) = Some (js_lt vl vr)) /\
    (Token.type o = Kind LESS_EQUAL ->
       Interpreter.evaluate (S fuel) (Binary l o r) = Some (js_le vl vr)) /\
    Type_of (js_gt vl vr) = TBoolean /\ Type_of (js_ge vl vr) = TBoolean /\
    Type_of (js_lt vl vr) = TBoolean /\ Type_of (js_le vl vr) = TBoolean.
Proof.
  intros fuel o l r vl vr Hl Hr.
  pose proof (evaluate_binary fuel o l r vl vr Hl Hr) as Hb.
  pose proof (evaluate_unary fuel o r vr Hr) as Hu.
  split; [intros Ho; rewrite Ho in *; split; assumption|].
  repeat (split; [intros Ho; rewrite Ho in *; assumption|]).
  repeat split.
Qed.

Lemma number_operators_return_coerced_witness :
  Interpreter.evaluate 2 (Unary (op MINUS "-") (Literal (VString "a")))
    = Some (VNumber (JsNumber.neg (ToNumber (VString "a")))) /\
  Interpreter.evaluate 2
    (Binary (Literal VNull) (op MINUS "-") (Literal (VString "a")))
    = Some (VNumber (JsNumber.sub (ToNumber VNull) (ToNumber (VString "a")))).
Proof.
  exact (proj1 (number_operators_return_coerced 1 (op MINUS "-")
                  (Literal VNull) (Literal (VString "a")) VNull (VString "a")
                  eq_refl eq_refl) eq_refl).
Defined.

(** ** Truthiness *)

(** C6: for a Unary expression with operator [!] whose operand evaluates to
    a RuntimeValue, evaluation returns the Boolean negation of the operand's
    truthiness, where Nil and the Boolean [false] are falsy and every other
    value is truthy. *)
Theorem bang_negates_truthiness :
  forall (fuel : nat) (o : Token) (e : Expr) (v : Value),
    Token.type o = Kind BANG ->
    Interpreter.evaluate fuel e = Some v ->
    RuntimeValue v ->
    Interpreter.evaluate (S fuel) (Unary o e) = Some (VBoolean (negb (spec_truthy v))).
Proof.
  intros fuel o e v Ho He Hv.
  rewrite (evaluate_unary fuel o e v He), Ho.
  destruct v as [| |[|]|x|s]; try reflexivity.
  now elim Hv.
Qed.

Lemma bang_negates_truthiness_witness :
  Interpreter.evaluate 2 (Unary (op BANG "!") (Literal (num 0)))
  = Some (VBoolean (negb (spec_truthy (num 0)))).
Proof.
  apply (bang_negates_truthiness 1 (op BANG "!") (Literal (num 0)) (num 0)).
  - reflexivity.
  - reflexivity.
  - discriminate.
Defined.

Example bang_scripts :
  main_script 50 "!nil" = Some (0%Z, printed ["true"])
  /\ main_script 50 "!true" = Some (0%Z, printed ["false"])
  /\ main_script 50 "!0" = Some (0%Z, printed ["false"])
  /\ main_script 50 ("!" ++ quoted "") = Some (0%Z, printed ["false"]).
Proof. repeat split; vm_compute; reflexivity. Qed.

(** ** Equality *)

Lemma IsStrictlyEqual_spec (l r : Value) :
  RuntimeValue l -> RuntimeValue r -> IsStrictlyEqual l r = spec_equal l r.
Proof.
  intros Hl Hr. unfold IsStrictlyEqual.
  destruct l, r; cbn; try reflexivity; now (elim Hl + elim Hr).
Qed.

(** C7: for every pair of RuntimeValues the operands evaluate to, [==] and
    [!=] return a Boolean and never fail: [==] returns [true] exactly when
    the operands have the same tag and equal payloads (Numbers by
    floating-point equality), and [!=] returns its negation. *)
Theorem equality_is_structural :
  forall (fuel : nat) (o : Token) (l r : Expr) (vl vr : Value),
    Interpreter.evaluate fuel l = Some vl ->
    Interpreter.evaluate fuel r = Some vr ->
    RuntimeValue vl -> RuntimeValue vr ->
    (Token.type o = Kind EQUAL_EQUAL ->
       Interpreter.evaluate (S fuel) (Binary l o r) = Some (VBoolean (spec_equal vl vr))) /\
    (Token.type o = Kind BANG_EQUAL ->
       Interpreter.evaluate (S fuel) (Binary l o r)
         = Some (VBoolean (negb (spec_equal vl vr)))) /\
    (Type_of vl <> Type_of vr -> spec_equal vl vr = false).
Proof.
  intros fuel o l r vl vr Hl Hr Rl Rr.
  pose proof (evaluate_binary fuel o l r vl vr Hl Hr) as Hb.
  pose proof (IsStrictlyEqual_spec vl vr Rl Rr) as Heq.
  repeat split.
  - intros Ho. rewrite Hb, Ho. cbn. now rewrite Heq.
  - intros Ho. rewrite Hb, Ho. cbn. now rewrite Heq.
  - intros Hne. destruct vl, vr; cbn in *; congruence.
Qed.

Lemma equality_is_structural_witness :
  Interpreter.evaluate 2
    (Binary (Literal (num 1)) (op EQUAL_EQUAL "==") (Literal (VString "1")))
  = Some (VBoolean (spec_equal (num 1) (VString "1"))).
Proof.
  refine (proj1 (equality_is_structural 1 (op EQUAL_EQUAL "==")
                   (Literal (num 1)) (Literal (VString "1")) (num 1) (VString "1")
                   eq_refl eq_refl _ _) eq_refl); discriminate.
Defined.

Example equality_scripts :
  main_script 50 ("1 == " ++ quoted "1") = Some (0%Z, printed ["false"])
  /\ main_script 50 "1 == 1.0" = Some (0%Z, printed ["true"])
  /\ main_script 50 ("1 != " ++ quoted "1") = Some (0%Z, printed ["true"])
  /\ main_script 50 "nil == false" = Some (0%Z, printed ["false"])
  /\ main_script 50 "0/0 == 0/0" = Some (0%Z, printed ["false"]).
Proof. repeat split; vm_compute; reflexivity. Qed.

(** ** Keywords and identifiers *)

(** What the lookup [KEYWORDS[text]] gives: the keyword's type for the
    sixteen keywords, the inherited member for the twelve names of
    [Object.prototype], and [undefined] for every other text. *)
Lemma KEYWORDS_get_cases (text : string) :
  match Scanner.own_property text Scanner.KEYWORDS with
  | Some kw => Scanner.KEYWORDS_get text = Some (Kind kw)
  | None =>
      if existsb (String.eqb text) Scanner.Object_prototype_keys
      then Scanner.KEYWORDS_get text = Some (PrototypeMember text)
      else Scanner.KEYWORDS_get text = None
  end.
Proof.
  unfold Scanner.KEYWORDS_get.
  destruct (Scanner.own_property text Scanner.KEYWORDS); [reflexivity|].
  destruct (existsb (String.eqb text) Scanner.Object_prototype_keys); reflexivity.
Qed.

(** C8 (the code departs from it): [Scanner.KEYWORDS[text]] also finds what
    the table inherits from [Object.prototype].  The lexeme [toString] is
    none of the sixteen keywords, and the type of its token is the inherited
    member, not [IDENTIFIER]. *)
Theorem inherited_name_is_not_IDENTIFIER :
  Scanner.own_property "toString" Scanner.KEYWORDS = None
  /\ Scanner.scanTokens 9 (Scanner.new "toString") initial_world
     = Some ([Token.mk (PrototypeMember "toString") "toString" VNull 1;
              Token.mk (Kind EOF) "" VNull 1],
             initial_world).
Proof. split; vm_compute; reflexivity. Qed.

Example keyword_and_identifier_tokens :
  option_map (fun r => map (fun tok => (Token.type tok, Token.lexeme tok)) (fst r))
    (Scanner.scanTokens 30 (Scanner.new "nil or orchid _x1 valueOf") initial_world)
  = Some [(Kind NIL, "nil"); (Kind OR, "or"); (Kind IDENTIFIER, "orchid");
          (Kind IDENTIFIER, "_x1"); (PrototypeMember "valueOf", "valueOf");
          (Kind EOF, "")].
Proof. vm_compute. reflexivity. Qed.

(** ** The operators of parsed trees *)

Lemma type_is_true (v : TypeValue) (t : TokenType) :
  type_is v t = true <-> v = Kind t.
Proof.
  destruct v as [t'|k]; cbn.
  - destruct (TokenType_eq_dec t' t) as [->|Hne]; split; intros H;
      try reflexivity; try discriminate.
    injection H as H. contradiction.
  - split; discriminate.
Qed.

Lemma parser_operators_switch (e : Expr) : parser_operators e -> switch_matches e.
Proof.
  induction e as [l IHl o r IHr | inner IH | v | o r IHr]; cbn.
  - intros [(ty & Hin & Hty) [Hl Hr]]. split; [|auto].
    intros vl vr. rewrite Hty.
    cbn in Hin. decompose [or] Hin; subst; try contradiction; cbn; discriminate.
  - exact IH.
  - trivial.
  - intros [(ty & Hin & Hty) Hr]. split; [|auto].
    intros v. rewrite Hty.
    cbn in Hin. decompose [or] Hin; subst; try contradiction; cbn; discriminate.
Qed.

Module ParserFacts.

Import Parser ParserInv.

Section WithTokens.

Variable tokens : list Token.

Lemma bind_Returned {A B : Type} (m : M A) (k : A -> M B) cur w b cur' w' :
  bind m k cur w = Returned b cur' w' ->
  exists a cur1 w1, m cur w = Returned a cur1 w1 /\ k a cur1 w1 = Returned b cur' w'.
Proof.
  unfold bind. destruct (m cur w) as [a cur1 w1| |]; try discriminate.
  intros H. now exists a, cur1, w1.
Qed.

Lemma check_spec (ty : TokenType) (cur : nat) (w : World) :
  check tokens ty cur w =
  match token_at tokens cur with
  | Some tok =>
      Returned (negb (type_is (Token.type tok) EOF) && type_is (Token.type tok) ty) cur w
  | None => Thrown (read_of_undefined "type") w
  end.
Proof.
  unfold check, isAtEnd, peek, type_of, bind, ret, throw.
  destruct (token_at tokens cur) as [tok|] eqn:Htok; [|reflexivity].
  destruct (type_is (Token.type tok) EOF); cbn; rewrite ?Htok; reflexivity.
Qed.

Lemma advance_spec (cur : nat) (w : World) (tok : Token) :
  token_at tokens cur = Some tok ->
  type_is (Token.type tok) EOF = false ->
  advance tokens cur w = Returned (Some tok) (S cur) w.
Proof.
  intros Htok Hend.
  unfold advance, isAtEnd, peek, type_of, previous, increment, bind, ret.
  rewrite Htok, Hend. cbn. now rewrite Htok.
Qed.

(** A successful [match_] has stepped over one token, whose type is one of
    [types]; nothing else changed. *)
Lemma match_true (types : list TokenType) (cur : nat) (w : World) cur' w' :
  match_ tokens types cur w = Returned true cur' w' ->
  exists tok ty,
    token_at tokens cur = Some tok /\ In ty types /\ Token.type tok = Kind ty /\
    cur' = S cur /\ w' = w.
Proof.
  induction types as [|ty rest IH]; cbn; [discriminate|].
  unfold bind at 1. rewrite check_spec.
  destruct (token_at tokens cur) as [tok|] eqn:Htok; [|discriminate].
  destruct (type_is (Token.type tok) EOF) eqn:Hend; cbn.
  - intros H. destruct (IH H) as (tok' & ty' & H1 & H2 & H3).
    exists tok', ty'. auto.
  - destruct (type_is (Token.type tok) ty) eqn:Hty.
    + unfold bind, ret. rewrite (advance_spec cur w tok Htok Hend).
      intros H. injection H as <- <-.
      exists tok, ty. apply type_is_true in Hty. auto.
    + intros H. destruct (IH H) as (tok' & ty' & H1 & H2 & H3).
      exists tok', ty'. auto.
Qed.

Lemma match_false (types : list TokenType) (cur : nat) (w : World) cur' w' :
  match_ tokens types cur w = Returned false cur' w' -> cur' = cur /\ w' = w.
Proof.
  induction types as [|ty rest IH]; cbn.
  - unfold ret. intros H. injection H as <- <-. auto.
  - unfold bind at 1. rewrite check_spec.
    destruct (token_at tokens cur) as [tok|] eqn:Htok; [|discriminate].
    destruct (negb (type_is (Token.type tok) EOF) && type_is (Token.type tok) ty)
      eqn:Hc; [|exact IH].
    apply andb_prop in Hc as [Hend Hty]. apply negb_true_iff in Hend.
    unfold bind, ret. rewrite (advance_spec cur w tok Htok Hend). discriminate.
Qed.

#[local] Arguments match_ : simpl never.

(** After a successful [match_], [previous()] is the token stepped over. *)
Lemma match_then_operator {A : Type} (types : list TokenType) (k : Token -> M A)
    cur w cur1 w1 (a : A) cur' w' :
  match_ tokens types cur w = Returned true cur1 w1 ->
  bind (previous_operator tokens) k cur1 w1 = Returned a cur' w' ->
  exists tok ty,
    In ty types /\ Token.type tok = Kind ty /\
    k tok (S cur) w = Returned a cur' w'.
Proof.
  intros Hm Hk. apply match_true in Hm as (tok & ty & Htok & Hin & Hty & -> & ->).
  exists tok, ty. repeat split; try assumption.
  unfold bind, previous_operator, previous, ret in Hk. cbn in Hk.
  now rewrite Htok in Hk.
Qed.

Lemma binary_loop_operators (types : list TokenType) (operand : M Expr) :
  incl types binary_operators ->
  yields parser_operators operand ->
  forall (n : nat) (expr : Expr),
    parser_operators expr ->
    yields parser_operators (binary_loop tokens n types operand expr).
Proof.
  intros Hincl Hoperand.
  induction n as [|n IH]; intros expr Hexpr cur w e cur' w' H; [discriminate|].
  cbn in H. apply bind_Returned in H as ([|] & cur1 & w1 & Hm & H).
  - destruct (match_then_operator _ _ _ _ _ _ _ _ _ Hm H)
      as (tok & ty & Hin & Hty & Hk).
    apply bind_Returned in Hk as (right & cur2 & w2 & Hr & Hk).
    apply (IH (Binary expr tok right)) in Hk; [exact Hk|].
    cbn. split; [|split]; [|assumption|exact (Hoperand _ _ _ _ _ Hr)].
    exists ty. split; [apply Hincl, Hin | exact Hty].
  - unfold ret in H. injection H as <- _ _. exact Hexpr.
Qed.

Ltac sublist := intros ty Hin; cbn in Hin |- *; tauto.

Lemma grammar_operators (fuel : nat) :
  yields parser_operators (expression tokens fuel) /\
  yields parser_operators (equality tokens fuel) /\
  yields parser_operators (comparison tokens fuel) /\
  yields parser_operators (term tokens fuel) /\
  yields parser_operators (factor tokens fuel) /\
  yields parser_operators (unary tokens fuel) /\
  yields parser_operators (primary tokens fuel).
Proof.
  induction fuel as [|f (IHe & IHq & IHc & IHt & IHf & IHu & IHp)].
  - repeat split; intros cur w e cur' w' H; discriminate.
  - repeat split; intros cur w e cur' w' H; cbn in H.
    + exact (IHq _ _ _ _ _ H).
    + apply bind_Returned in H as (expr & cur1 & w1 & H1 & H).
      refine (binary_loop_operators _ _ _ IHc f expr (IHc _ _ _ _ _ H1) _ _ _ _ _ H).
      sublist.
    + apply bind_Returned in H as (expr & cur1 & w1 & H1 & H).
      refine (binary_loop_operators _ _ _ IHt f expr (IHt _ _ _ _ _ H1) _ _ _ _ _ H).
      sublist.
    + apply bind_Returned in H as (expr & cur1 & w1 & H1 & H).
      refine (binary_loop_operators _ _ _ IHf f expr (IHf _ _ _ _ _ H1) _ _ _ _ _ H).
      sublist.
    + apply bind_Returned in H as (expr & cur1 & w1 & H1 & H).
      refine (binary_loop_operators _ _ _ IHu f expr (IHu _ _ _ _ _ H1) _ _ _ _ _ H).
      sublist.
    + apply bind_Returned in H as ([|] & cur1 & w1 & Hm & H).
      * destruct (match_then_operator _ _ _ _ _ _ _ _ _ Hm H)
          as (tok & ty & Hin & Hty & Hk).
        apply bind_Returned in Hk as (right & cur2 & w2 & Hr & Hk).
        unfold ret in Hk. injection Hk as <- _ _.
        cbn. split; [|exact (IHu _ _ _ _ _ Hr)].
        exists ty. split; assumption.
      * exact (IHp _ _ _ _ _ H).
    + apply bind_Returned in H as ([|] & cur1 & w1 & _ & H);
        [unfold ret in H; injection H as <- _ _; exact I|].
      apply bind_Returned in H as ([|] & cur2 & w2 & _ & H);
        [unfold ret in H; injection H as <- _ _; exact I|].
      apply bind_Returned in H as ([|] & cur3 & w3 & _ & H);
        [unfold ret in H; injection H as <- _ _; exact I|].
      apply bind_Returned in H as ([|] & cur4 & w4 & _ & H).
      { apply bind_Returned in H as (value & cur5 & w5 & _ & H).
        unfold ret in H; injection H as <- _ _; exact I. }
      apply bind_Returned in H as ([|] & cur5 & w5 & _ & H).
      * apply bind_Returned in H as (expr & cur6 & w6 & He & H).
        apply bind_Returned in H as (tok & cur7 & w7 & _ & H).
        unfold ret in H; injection H as <- _ _.
        exact (IHe _ _ _ _ _ He).
      * apply bind_Returned in H as (tok & cur6 & w6 & _ & H).
        apply bind_Returned in H as (err & cur7 & w7 & _ & H).
        discriminate.
Qed.

(** *** The parser prints nothing on the standard output *)

Lemma silent_ret {A : Type} (a : A) : silent (ret a).
Proof. intros cur w. reflexivity. Qed.

Lemma silent_throw {A : Type} (e : Exception) : silent (@throw A e).
Proof. intros cur w. reflexivity. Qed.

Lemma silent_out_of_fuel {A : Type} : silent (@out_of_fuel A).
Proof. intros cur w. exact I. Qed.

Lemma silent_bind {A B : Type} (m : M A) (k : A -> M B) :
  silent m -> (forall a, silent (k a)) -> silent (bind m k).
Proof.
  intros Hm Hk cur w. unfold bind.
  specialize (Hm cur w). destruct (m cur w) as [a cur1 w1|e w1|]; auto.
  specialize (Hk a cur1 w1). unfold quiet in *.
  destruct (k a cur1 w1); auto; congruence.
Qed.

Lemma silent_report (line : nat) (where_ message : string) :
  silent (report_ line where_ message).
Proof. intros cur w. reflexivity. Qed.

Ltac silence :=
  repeat first
    [ solve [auto]
    | apply silent_ret | apply silent_throw | apply silent_out_of_fuel
    | apply silent_report
    | apply silent_bind; [|intros ?]
    | match goal with
      | |- silent (if ?b then _ else _) => destruct b
      | |- silent (match ?o with Some _ => _ | None => _ end) => destruct o
      end ].

Lemma silent_peek : silent (peek tokens).
Proof. intros cur w. reflexivity. Qed.

Lemma silent_previous : silent (previous tokens).
Proof. intros cur w. reflexivity. Qed.

Lemma silent_increment : silent increment.
Proof. intros cur w. reflexivity. Qed.

Lemma silent_type_of (tok : option Token) : silent (type_of tok).
Proof. unfold type_of. silence. Qed.

Lemma silent_isAtEnd : silent (isAtEnd tokens).
Proof. unfold isAtEnd. pose proof silent_peek. pose proof silent_type_of. silence. Qed.

Lemma silent_check (ty : TokenType) : silent (check tokens ty).
Proof.
  unfold check. pose proof silent_peek. pose proof silent_type_of.
  pose proof silent_isAtEnd. silence.
Qed.

Lemma silent_advance : silent (advance tokens).
Proof.
  unfold advance. pose proof silent_isAtEnd. pose proof silent_increment.
  pose proof silent_previous. silence.
Qed.

Lemma silent_match (types : list TokenType) : silent (match_ tokens types).
Proof.
  induction types as [|ty rest IH]; unfold match_; fold (match_ tokens).
  - apply silent_ret.
  - pose proof (silent_check ty). pose proof silent_advance. silence.
Qed.

Lemma silent_error (tok : option Token) (message : string) :
  silent (error_ tok message).
Proof. unfold error_. silence. Qed.

Lemma silent_consume (ty : TokenType) (message : string) :
  silent (consume tokens ty message).
Proof.
  unfold consume. pose proof (silent_check ty). pose proof silent_advance.
  pose proof silent_peek. pose proof silent_error. silence.
Qed.

Lemma silent_previous_operator : silent (previous_operator tokens).
Proof. unfold previous_operator. pose proof silent_previous. silence. Qed.

Lemma silent_previous_literal : silent (previous_literal tokens).
Proof. unfold previous_literal. pose proof silent_previous. silence. Qed.

Lemma silent_binary_loop (types : list TokenType) (operand : M Expr) :
  silent operand ->
  forall (n : nat) (expr : Expr), silent (binary_loop tokens n types operand expr).
Proof.
  intros Hoperand. induction n as [|n IH]; intros expr; cbn [binary_loop].
  - apply silent_out_of_fuel.
  - pose proof (silent_match types). pose proof silent_previous_operator.
    apply silent_bind; [assumption|]. intros [|]; [|apply silent_ret].
    apply silent_bind; [assumption|]. intros o.
    apply silent_bind; [assumption|]. intros r. apply IH.
Qed.

Lemma silent_grammar (fuel : nat) :
  silent (expression tokens fuel) /\
  silent (equality tokens fuel) /\
  silent (comparison tokens fuel) /\
  silent (term tokens fuel) /\
  silent (factor tokens fuel) /\
  silent (unary tokens fuel) /\
  silent (primary tokens fuel).
Proof.
  induction fuel as [|f (IHe & IHq & IHc & IHt & IHf & IHu & IHp)].
  - repeat split; apply silent_out_of_fuel.
  - pose proof silent_match as Hm. pose proof silent_previous_operator.
    pose proof silent_previous_literal. pose proof silent_peek.
    pose proof silent_error. pose proof silent_consume.
    repeat split.
    + exact IHq.
    + cbn [equality]. apply silent_bind; [assumption|]. intros e.
      now apply silent_binary_loop.
    + cbn [comparison]. apply silent_bind; [assumption|]. intros e.
      now apply silent_binary_loop.
    + cbn [term]. apply silent_bind; [assumption|]. intros e.
      now apply silent_binary_loop.
    + cbn [factor]. apply silent_bind; [assumption|]. intros e.
      now apply silent_binary_loop.
    + cbn [unary]. apply silent_bind; [apply Hm|]. intros [|]; silence.
    + cbn [primary].
      do 5 (apply silent_bind; [apply Hm|]; intros [|]; [solve [silence]|]).
      silence.
Qed.

(** [parse] prints nothing on the standard output. *)
Lemma parse_quiet (fuel : nat) (w w' : World) (r : option Expr) :
  parse tokens fuel w = Some (r, w') -> quiet w w'.
Proof.
  unfold parse. pose proof (proj1 (silent_grammar fuel) 0 w) as H.
  destruct (expression tokens fuel 0 w) as [e cur1 w1|e w1|]; intros E;
    try discriminate; injection E as _ <-; exact H.
Qed.

End WithTokens.

End ParserFacts.

(** C10: every tree a successful parse returns has Unary nodes only with
    operator [BANG] or [MINUS] and Binary nodes only with one of the ten
    operators the evaluator handles, so that on it the [switch] of a visit
    method always matches a case and never falls through. *)
Theorem parsed_operators_are_handled :
  forall (tokens : list Token) (fuel : nat) (w w' : World) (e : Expr),
    Parser.parse tokens fuel w = Some (Some e, w') ->
    parser_operators e /\ switch_matches e.
Proof.
  intros tokens fuel w w' e H.
  assert (He : parser_operators e).
  { unfold Parser.parse in H.
    destruct (Parser.expression tokens fuel 0 w) as [e0 cur0 w0| |] eqn:Hp;
      try discriminate.
    injection H as -> _.
    exact (proj1 (ParserFacts.grammar_operators tokens fuel) _ _ _ _ _ Hp). }
  split; [exact He | exact (parser_operators_switch e He)].
Qed.

Lemma parsed_operators_are_handled_witness :
  parser_operators
    (Binary (Unary (op MINUS "-") (Literal (num 1))) (op LESS "<") (Literal (num 2)))
  /\ switch_matches
    (Binary (Unary (op MINUS "-") (Literal (num 1))) (op LESS "<") (Literal (num 2))).
Proof.
  apply (parsed_operators_are_handled
           [op MINUS "-"; Token.mk (Kind NUMBER) "1" (num 1) 1; op LESS "<";
            Token.mk (Kind NUMBER) "2" (num 2) 1; Token.mk (Kind EOF) "" VNull 1]
           20 initial_world initial_world).
  vm_compute. reflexivity.
Defined.


(** ** The token sequence of a scan *)

Module ScannerFacts.

Import Scanner ScannerInv.

Ltac advances_split := unfold advances; split; [|split].

Lemma advances_refl (sc : t) : advances sc sc.
Proof. advances_split; [reflexivity | lia | trivial]. Qed.

Lemma advances_trans (a b c : t) : advances a b -> advances b c -> advances a c.
Proof.
  intros (S1 & C1 & I1) (S2 & C2 & I2). advances_split.
  - congruence.
  - lia.
  - auto.
Qed.

Lemma StronglySorted_snoc (l : list nat) (x : nat) :
  StronglySorted le l -> Forall (fun y => y <= x) l -> StronglySorted le (l ++ [x]).
Proof.
  induction 1 as [|a l Hl IH Ha]; intros Hx; cbn.
  - constructor; constructor.
  - inversion Hx as [|? ? Hax Hlx]; subst. constructor.
    + apply IH, Hlx.
    + apply Forall_app. split; [exact Ha | constructor; [exact Hax | constructor]].
Qed.

Lemma Inv_push (tok : Token) (sc : t) :
  not_EOF tok -> Token.line tok = line sc -> Inv sc -> Inv (push tok sc).
Proof.
  intros Hk Hl (I1 & I2 & I3). unfold Inv; cbn. split; [|split].
  - apply Forall_app. split; [exact I1 | constructor; [exact Hk | constructor]].
  - apply Forall_app. split; [exact I2 | constructor; [lia | constructor]].
  - rewrite map_app. cbn. apply StronglySorted_snoc; [exact I3|].
    rewrite Forall_map. rewrite <- Hl in I2. exact I2.
Qed.

Lemma advances_skip (sc : t) : advances sc (skip sc).
Proof. advances_split; cbn; [reflexivity | lia | trivial]. Qed.

Lemma advances_set_start (n : nat) (sc : t) : advances sc (set_start n sc).
Proof. advances_split; cbn; [reflexivity | lia | trivial]. Qed.

Lemma advances_set_line (sc : t) : advances sc (set_line (S (line sc)) sc).
Proof.
  advances_split; cbn; [reflexivity | lia |].
  intros (I1 & I2 & I3). unfold Inv; cbn. split; [|split]; auto.
  eapply Forall_impl; [|exact I2]. cbn. intros tok H. lia.
Qed.

Lemma advances_addToken (ty : TypeValue) (lit : Value) (sc : t) :
  ty <> Kind EOF -> advances sc (addToken ty lit sc).
Proof.
  intros Hty. advances_split; cbn; [reflexivity | lia |].
  intros HI. apply Inv_push; auto.
Qed.

Lemma advances_match (c : ascii) (sc : t) : advances sc (snd (match_ c sc)).
Proof.
  unfold match_. destruct (isAtEnd sc); [apply advances_refl|].
  destruct (JsString.at_index (source sc) (current sc)) as [c'|];
    [|apply advances_refl].
  destruct (Ascii.eqb c' c); [|apply advances_refl].
  advances_split; cbn; [reflexivity | lia | trivial].
Qed.

Lemma not_at_end (sc : t) :
  isAtEnd sc = false <-> current sc < String.length (source sc).
Proof. unfold isAtEnd. apply Nat.leb_gt. Qed.

Lemma peek_at_end (sc : t) : isAtEnd sc = true -> peek sc = NUL.
Proof. unfold peek. now intros ->. Qed.

(** A loop whose condition fails at the end of the source and whose body
    steps over one character ends within the length of the source. *)
Lemma while_advances (cond : t -> bool) (body : t -> t) :
  (forall s, isAtEnd s = true -> cond s = false) ->
  (forall s, current (body s) = S (current s) /\ advances s (body s)) ->
  forall (fuel : nat) (sc : t),
    String.length (source sc) - current sc < fuel ->
    exists sc', while fuel cond body sc = Some sc' /\ advances sc sc'.
Proof.
  intros Hend Hbody.
  induction fuel as [|fuel IH]; intros sc Hfuel; [lia|].
  cbn. destruct (cond sc) eqn:Hc.
  - assert (Hne : isAtEnd sc = false).
    { destruct (isAtEnd sc) eqn:E; [|reflexivity].
      apply Hend in E. congruence. }
    apply not_at_end in Hne.
    destruct (Hbody sc) as (Hcur & Hadv).
    destruct (IH (body sc)) as (sc' & Hw & Hadv').
    + destruct Hadv as (Hs & _). rewrite Hs, Hcur. lia.
    + exists sc'. split; [exact Hw | exact (advances_trans _ _ _ Hadv Hadv')].
  - exists sc. split; [reflexivity | apply advances_refl].
Qed.

Lemma skip_step (s : t) : current (skip s) = S (current s) /\ advances s (skip s).
Proof. split; [reflexivity | apply advances_skip]. Qed.

Lemma own_property_In (text : string) (table : list (string * TokenType)) (ty : TokenType) :
  own_property text table = Some ty -> In ty (map snd table).
Proof.
  induction table as [|[k v] rest IH]; cbn; [discriminate|].
  destruct (String.eqb k text).
  - intros H. injection H as ->. now left.
  - intros H. right. auto.
Qed.

Lemma KEYWORDS_get_not_EOF (text : string) (ty : TypeValue) :
  KEYWORDS_get text = Some ty -> ty <> Kind EOF.
Proof.
  unfold KEYWORDS_get.
  destruct (own_property text KEYWORDS) as [kw|] eqn:Hown.
  - intros H. injection H as <-. apply own_property_In in Hown.
    intros E. injection E as ->. cbn in Hown.
    decompose [or] Hown; try discriminate; contradiction.
  - destruct (existsb (String.eqb text) Object_prototype_keys); [|discriminate].
    intros H. injection H as <-. discriminate.
Qed.

Lemma quiet_refl (w : World) : quiet w w.
Proof. reflexivity. Qed.

Lemma quiet_error (line : nat) (message : string) (w : World) :
  quiet w (error line message w).
Proof. reflexivity. Qed.

Section Enough.

Variable fuel : nat.

Lemma enough_advances (sc sc' : t) :
  advances sc sc' -> enough fuel sc -> enough fuel sc'.
Proof. intros (Hs & _) H. unfold enough. now rewrite Hs. Qed.

Lemma while_enough (cond : t -> bool) (body : t -> t) (sc : t) :
  (forall s, isAtEnd s = true -> cond s = false) ->
  (forall s, current (body s) = S (current s) /\ advances s (body s)) ->
  enough fuel sc ->
  exists sc', while fuel cond body sc = Some sc' /\ advances sc sc'.
Proof.
  intros Hend Hbody He. apply while_advances; auto. unfold enough in He. lia.
Qed.

Lemma digits_end (s : t) : isAtEnd s = true -> isDigit (peek s) = false.
Proof. intros H. now rewrite (peek_at_end s H). Qed.

Lemma alnum_end (s : t) : isAtEnd s = true -> isAlphaNumeric (peek s) = false.
Proof. intros H. now rewrite (peek_at_end s H). Qed.

Lemma until_end (c : ascii) (s : t) :
  isAtEnd s = true -> negb (Ascii.eqb (peek s) c) && negb (isAtEnd s) = false.
Proof. intros ->. apply andb_false_r. Qed.

Lemma string_ok (sc : t) (w : World) :
  enough fuel sc ->
  exists sc' w', string_ fuel sc w = Some (sc', w') /\ advances sc sc' /\ quiet w w'.
Proof.
  intros He. unfold string_.
  match goal with |- context [while fuel ?c ?b sc] =>
    destruct (while_enough c b sc) as (sc1 & -> & H1) end.
  - apply until_end.
  - intros s. split; [now destruct (Ascii.eqb (peek s) LF)|].
    destruct (Ascii.eqb (peek s) LF).
    + exact (advances_trans _ _ _ (advances_set_line s) (advances_skip _)).
    + apply advances_skip.
  - exact He.
  - destruct (isAtEnd sc1).
    + exists sc1, (error (line sc1) "Unterminated string." w).
      split; [reflexivity|]. split; [exact H1 | apply quiet_error].
    + eexists _, w. split; [reflexivity|]. split; [|apply quiet_refl].
      eapply advances_trans; [exact H1|].
      eapply advances_trans; [apply advances_skip|].
      apply advances_addToken. discriminate.
Qed.

Lemma identifier_ok (sc : t) :
  enough fuel sc -> exists sc', identifier fuel sc = Some sc' /\ advances sc sc'.
Proof.
  intros He. unfold identifier.
  destruct (while_enough (fun s => isAlphaNumeric (peek s)) skip sc alnum_end skip_step He)
    as (sc1 & -> & H1).
  eexists. split; [reflexivity|].
  eapply advances_trans; [exact H1|]. apply advances_addToken.
  destruct (KEYWORDS_get _) as [ty|] eqn:Hk.
  - exact (KEYWORDS_get_not_EOF _ _ Hk).
  - discriminate.
Qed.

Lemma number_ok (sc : t) :
  enough fuel sc -> exists sc', number fuel sc = Some sc' /\ advances sc sc'.
Proof.
  intros He. unfold number.
  destruct (while_enough (fun s => isDigit (peek s)) skip sc digits_end skip_step He)
    as (sc1 & -> & H1).
  pose proof (enough_advances _ _ H1 He) as He1.
  destruct (Ascii.eqb (peek sc1) "." && isDigit (peekNext sc1)).
  - pose proof (enough_advances _ _ (advances_skip sc1) He1) as He2.
    destruct (while_enough (fun s => isDigit (peek s)) skip (skip sc1)
                digits_end skip_step He2) as (sc2 & -> & H2).
    eexists. split; [reflexivity|].
    eapply advances_trans; [exact H1|].
    eapply advances_trans; [apply advances_skip|].
    eapply advances_trans; [exact H2|].
    apply advances_addToken. discriminate.
  - eexists. split; [reflexivity|].
    eapply advances_trans; [exact H1|].
    apply advances_addToken. discriminate.
Qed.

Ltac solve_add :=
  eexists _, _; split; [reflexivity|]; split;
  [first [apply advances_refl | apply advances_addToken; discriminate]
  |first [apply quiet_refl | apply quiet_error]].

Ltac solve_add2 :=
  match goal with
  | |- context [match_ ?c ?s] =>
      let Hm := fresh "Hm" in
      let m := fresh "m" in
      pose proof (advances_match c s) as Hm;
      destruct (match_ c s) as [m ?]; cbn in Hm |- *;
      eexists _, _; split; [reflexivity|]; split;
      [eapply advances_trans; [exact Hm | apply advances_addToken; destruct m; discriminate]
      |apply quiet_refl]
  end.

(** The [switch] of [scanToken], for the character [c] that [advance]
    returned and the scanner [sc0] after it. *)
Lemma scanToken_rest_ok (c : option ascii) (sc0 : t) (w : World) :
  enough fuel sc0 ->
  exists sc' w',
    (let add (ty : TokenType) := Some (addToken (Kind ty) VNull sc0, w) in
     let add2 (ty2 ty1 : TokenType) :=
       let '(m, sc) := match_ "=" sc0 in
       Some (addToken (Kind (if m then ty2 else ty1)) VNull sc, w) in
     if char_is c "(" then add LEFT_PAREN
     else if char_is c ")" then add RIGHT_PAREN
     else if char_is c "{" then add LEFT_BRACE
     else if char_is c "}" then add RIGHT_BRACE
     else if char_is c "," then add COMMA
     else if char_is c "." then add DOT
     else if char_is c "-" then add MINUS
     else if char_is c "+" then add PLUS
     else if char_is c ";" then add SEMICOLON
     else if char_is c "*" then add STAR
     else if char_is c "!" then add2 BANG_EQUAL BANG
     else if char_is c "=" then add2 EQUAL_EQUAL EQUAL
     else if char_is c "<" then add2 LESS_EQUAL LESS
     else if char_is c ">" then add2 GREATER_EQUAL GREATER
     else if char_is c "/" then
       let '(m, sc) := match_ "/" sc0 in
       if m then
         match while fuel (fun s => negb (Ascii.eqb (peek s) LF) && negb (isAtEnd s))
                 skip sc with
         | Some sc => Some (sc, w)
         | None => None
         end
       else Some (addToken (Kind SLASH) VNull sc, w)
     else if char_is c " " || char_is c CR || char_is c TAB then Some (sc0, w)
     else if char_is c LF then Some (set_line (S (line sc0)) sc0, w)
     else if char_is c QUOTE then string_ fuel sc0 w
     else
       match c with
       | Some c' =>
           if isDigit c' then
             match number fuel sc0 with Some sc => Some (sc, w) | None => None end
           else if isAlpha c' then
             match identifier fuel sc0 with Some sc => Some (sc, w) | None => None end
           else Some (sc0, error (line sc0) "Unexpected character." w)
       | None => Some (sc0, error (line sc0) "Unexpected character." w)
       end) = Some (sc', w')
    /\ advances sc0 sc' /\ quiet w w'.
Proof.
  intros He. cbv zeta.
  do 10 (match goal with |- context [if char_is c ?x then _ else _] =>
           destruct (char_is c x); [solve_add|] end).
  do 4 (match goal with |- context [if char_is c ?x then _ else _] =>
          destruct (char_is c x); [solve_add2|] end).
  destruct (char_is c "/").
  { pose proof (advances_match "/" sc0) as Hm.
    destruct (match_ "/" sc0) as [m sc1]; cbn in Hm.
    destruct m.
    - destruct (while_enough
                  (fun s => negb (Ascii.eqb (peek s) LF) && negb (isAtEnd s)) skip sc1
                  (until_end LF) skip_step (enough_advances _ _ Hm He))
        as (sc2 & -> & H2).
      exists sc2, w. split; [reflexivity|].
      split; [exact (advances_trans _ _ _ Hm H2) | apply quiet_refl].
    - eexists _, _. split; [reflexivity|]. split; [|apply quiet_refl].
      eapply advances_trans; [exact Hm | apply advances_addToken; discriminate]. }
  destruct (char_is c " " || char_is c CR || char_is c TAB); [solve_add|].
  destruct (char_is c LF).
  { eexists _, _. split; [reflexivity|].
    split; [apply advances_set_line | apply quiet_refl]. }
  destruct (char_is c QUOTE); [apply string_ok, He|].
  destruct c as [c'|]; [|solve_add].
  destruct (isDigit c').
  { destruct (number_ok sc0 He) as (sc1 & -> & H1).
    exists sc1, w. split; [reflexivity|]. split; [exact H1 | apply quiet_refl]. }
  destruct (isAlpha c'); [|solve_add].
  destruct (identifier_ok sc0 He) as (sc1 & -> & H1).
  exists sc1, w. split; [reflexivity|]. split; [exact H1 | apply quiet_refl].
Qed.

(** [scanToken] ends, having stepped over at least one character. *)
Lemma scanToken_ok (sc : t) (w : World) :
  enough fuel sc ->
  exists sc' w',
    scanToken fuel sc w = Some (sc', w') /\
    current sc < current sc' /\ advances sc sc' /\ quiet w w'.
Proof.
  intros He.
  destruct (scanToken_rest_ok (JsString.at_index (source sc) (current sc)) (skip sc) w)
    as (sc' & w' & Hs & Hadv & Hq).
  - exact (enough_advances _ _ (advances_skip sc) He).
  - exists sc', w'. split; [exact Hs|]. split; [|split; [|exact Hq]].
    + destruct Hadv as (_ & Hc & _). cbn in Hc. lia.
    + exact (advances_trans _ _ _ (advances_skip sc) Hadv).
Qed.

#[local] Arguments scanToken : simpl never.

Lemma scanLoop_ok (n : nat) :
  forall (sc : t) (w : World),
    enough fuel sc ->
    String.length (source sc) - current sc < n ->
    exists sc' w',
      scanLoop n fuel sc w = Some (sc', w') /\ advances sc sc' /\ quiet w w'.
Proof.
  induction n as [|n IH]; intros sc w He Hn; [lia|].
  cbn. destruct (isAtEnd sc) eqn:Hend; cbn.
  - exists sc, w. split; [reflexivity|]. split; [apply advances_refl | apply quiet_refl].
  - apply not_at_end in Hend.
    pose proof (advances_set_start (current sc) sc) as H0.
    destruct (scanToken_ok (set_start (current sc) sc) w (enough_advances _ _ H0 He))
      as (sc1 & w1 & -> & Hlt & H1 & Hq1).
    cbn in Hlt.
    pose proof (advances_trans _ _ _ H0 H1) as H01.
    destruct (IH sc1 w1 (enough_advances _ _ H01 He)) as (sc2 & w2 & Hloop & H2 & Hq2).
    + destruct H01 as (Hs & _). rewrite Hs. lia.
    + exists sc2, w2. split; [exact Hloop|].
      split; [exact (advances_trans _ _ _ H01 H2)|].
      unfold quiet in *. congruence.
Qed.

End Enough.

Lemma Inv_new (source : string) : Inv (new source).
Proof. unfold Inv; cbn. repeat constructor. Qed.

(** With a bound above the length of the text the scan ends; its tokens
    are those pushed under the invariant and one end-of-input token, and
    nothing was printed on the standard output. *)
Lemma scanTokens_ok (fuel : nat) (source : string) (w : World) :
  String.length source < fuel ->
  exists (sc : t) (w' : World),
    scanTokens fuel (new source) w
      = Some ((tokens sc ++ [Token.mk (Kind EOF) "" VNull (line sc)])%list, w') /\
    Inv sc /\ quiet w w'.
Proof.
  intros Hfuel.
  destruct (scanLoop_ok fuel fuel (new source) w) as (sc & w' & Hloop & (_ & _ & HI) & Hq).
  - exact Hfuel.
  - cbn. lia.
  - exists sc, w'. unfold scanTokens. rewrite Hloop. cbn.
    split; [reflexivity|]. split; [exact (HI (Inv_new source)) | exact Hq].
Qed.

End ScannerFacts.

(** C9: for every source text the scan ends (a bound above the length of
    the text is enough), its token sequence is some tokens that are not the
    end-of-input token followed by one end-of-input token, and the lines of
    the tokens never decrease along the sequence. *)
Theorem scan_ends_with_one_EOF_and_sorted_lines :
  forall (source : string) (fuel : nat) (w : World),
    String.length source < fuel ->
    exists (toks : list Token) (w' : World),
      Scanner.scanTokens fuel (Scanner.new source) w = Some (toks, w') /\
      (exists front eof,
          toks = (front ++ [eof])%list /\
          Token.type eof = Kind EOF /\
          Forall (fun tok => Token.type tok <> Kind EOF) front) /\
      StronglySorted le (map Token.line toks).
Proof.
  intros source fuel w Hfuel.
  destruct (ScannerFacts.scanTokens_ok fuel source w Hfuel)
    as (sc & w' & Hscan & (I1 & I2 & I3) & _).
  eexists _, w'. split; [exact Hscan|]. split.
  - eexists _, _. split; [reflexivity|]. split; [reflexivity | exact I1].
  - rewrite map_app. cbn. apply ScannerFacts.StronglySorted_snoc; [exact I3|].
    rewrite Forall_map. exact I2.
Qed.

Lemma scan_ends_with_one_EOF_and_sorted_lines_witness :
  exists (toks : list Token) (w' : World),
    Scanner.scanTokens 8 (Scanner.new ("1 +" ++ String Scanner.LF "2")) initial_world
      = Some (toks, w') /\
    (exists front eof,
        toks = (front ++ [eof])%list /\
        Token.type eof = Kind EOF /\
        Forall (fun tok => Token.type tok <> Kind EOF) front) /\
    StronglySorted le (map Token.line toks).
Proof.
  apply (scan_ends_with_one_EOF_and_sorted_lines
           ("1 +" ++ String Scanner.LF "2") 8 initial_world).
  cbn. lia.
Defined.

Example scan_two_lines :
  option_map (fun r => map (fun tok => (Token.type tok, Token.line tok)) (fst r))
    (Scanner.scanTokens 8 (Scanner.new ("1 +" ++ String Scanner.LF "2")) initial_world)
  = Some [(Kind NUMBER, 1); (Kind PLUS, 1); (Kind NUMBER, 2); (Kind EOF, 2)].
Proof. vm_compute. reflexivity. Qed.

(** ** Syntax errors in file mode *)

(** Whenever the parse of a script fails, nothing is printed on the
    standard output and the process ends with code -1: [run] hands the
    [null] to [interpret] before it looks at [hadError]. *)
Lemma failed_parse_exits_with_minus_one
    (fuel : nat) (content : string) (toks : list Token) (w1 w2 : World) :
  String.length content < fuel ->
  Scanner.scanTokens fuel (Scanner.new content) initial_world = Some (toks, w1) ->
  Parser.parse toks fuel w1 = Some (None, w2) ->
  exists w, main_script fuel content = Some ((-1)%Z, w) /\ stdout w = [].
Proof.
  intros Hfuel Hscan Hparse.
  unfold main_script, runFile, run. rewrite Hscan, Hparse. cbn.
  eexists. split; [reflexivity|]. cbn.
  apply ParserFacts.parse_quiet in Hparse.
  destruct (ScannerFacts.scanTokens_ok fuel content initial_world Hfuel)
    as (sc & w1' & Hscan' & _ & Hq).
  rewrite Hscan in Hscan'. injection Hscan' as _ <-.
  unfold quiet in *. now rewrite Hparse, Hq.
Qed.

(** C5 (the code departs from it): [run] calls [interpret] on the [null] a
    failed parse returns, before it looks at [hadError]; [null.accept]
    throws, and the [catch] of [main] prints the message and calls
    [exit(-1)].  For the script [(1 +] the parser reports its diagnostic,
    nothing is printed on the standard output, and the exit code is -1, not
    65. *)
Theorem syntax_error_exits_with_minus_one :
  exists w : World,
    main_script 50 "(1 +" = Some ((-1)%Z, w)
    /\ stdout w = []
    /\ hadError w = true
    /\ In "[line 1] Error at end: Expect expression" (stderr w).
Proof.
  eexists. split; [vm_compute; reflexivity|].
  split; [reflexivity|]. split; [reflexivity|]. left. reflexivity.
Qed.

(** The exit code 65 is reached when only the scanner reported: the rest of
    the text is parsed, evaluated and printed first. *)
Example lexical_error_exits_with_65 :
  main_script 50 "#1"
  = Some (65%Z, {| hadError := true; stdout := ["1"];
                   stderr := ["[line 1] Error: Unexpected character."] |}).
Proof. vm_compute. reflexivity. Qed.

(** * Further properties of the scanner *)

Module ScannerSteps.

Import Scanner ScanNotions.

Lemma get_Some_lt (s : string) :
  forall (i : nat) (c : ascii), String.get i s = Some c -> i < String.length s.
Proof.
  induction s as [|a s IH]; intros i c H; [discriminate|].
  destruct i as [|i]; cbn in *; [lia|]. apply IH in H. lia.
Qed.

Lemma get_lt_Some (s : string) :
  forall i : nat, i < String.length s -> exists c, String.get i s = Some c.
Proof.
  induction s as [|a s IH]; intros i H; cbn in H; [lia|].
  destruct i as [|i]; cbn; [now exists a|]. apply IH. lia.
Qed.

(** [peek] is the character under the cursor, [NUL] beyond the end. *)
Lemma peek_spec (sc : t) :
  match JsString.at_index (source sc) (current sc) with
  | Some c => peek sc = c /\ isAtEnd sc = false
  | None => peek sc = NUL /\ isAtEnd sc = true
  end.
Proof.
  unfold peek, isAtEnd, JsString.at_index.
  destruct (String.get (current sc) (source sc)) as [c|] eqn:Hget.
  - apply get_Some_lt in Hget. apply Nat.leb_gt in Hget. now rewrite Hget.
  - destruct (String.length (source sc) <=? current sc)%nat eqn:Hle; [auto|].
    apply Nat.leb_gt, get_lt_Some in Hle as (c & Hc). congruence.
Qed.

Lemma peek_LF (sc : t) :
  peek sc = LF <-> JsString.at_index (source sc) (current sc) = Some LF.
Proof.
  pose proof (peek_spec sc) as H.
  destruct (JsString.at_index (source sc) (current sc)) as [c|]; destruct H as [Hp He].
  - split; intros E; [now rewrite <- E, Hp | injection E as <-; exact Hp].
  - split; intros E; [rewrite Hp in E | ]; discriminate.
Qed.

(** What a loop leaves: an invariant of the body, and the condition false. *)
Lemma while_inv (P : t -> Prop) (cond : t -> bool) (body : t -> t) :
  (forall s, P s -> cond s = true -> P (body s)) ->
  forall (fuel : nat) (sc sc' : t),
    while fuel cond body sc = Some sc' -> P sc -> P sc' /\ cond sc' = false.
Proof.
  intros Hbody. induction fuel as [|fuel IH]; intros sc sc' H HP; [discriminate|].
  cbn in H. destruct (cond sc) eqn:Hc.
  - apply (IH _ _ H). now apply Hbody.
  - injection H as <-. auto.
Qed.

Lemma match_spec (expected : ascii) (sc : t) :
  match_ expected sc = (false, sc) \/
  (match_ expected sc = (true, skip sc) /\ peek sc = expected /\ isAtEnd sc = false).
Proof.
  unfold match_. pose proof (peek_spec sc) as H.
  destruct (isAtEnd sc) eqn:He; [now left|].
  destruct (JsString.at_index (source sc) (current sc)) as [c|]; [|now left].
  destruct H as [Hp _].
  destruct (Ascii.eqb c expected) eqn:Hc; [|now left].
  apply Ascii.eqb_eq in Hc. right. split; [reflexivity | split; congruence].
Qed.

Lemma peek_not_NUL (sc : t) : peek sc <> NUL -> isAtEnd sc = false.
Proof.
  unfold peek. destruct (isAtEnd sc); [intros H; now elim H | reflexivity].
Qed.

Section Preserves.

(** A property [P] of the scanner that stepping over a character keeps (with
    the line counted on a line feed), and a property [Q] that holds after
    [addToken], or with no token added. *)
Variables P Q : t -> Prop.
Variable c : option ascii.

Hypothesis Hskip :
  forall s, isAtEnd s = false -> peek s <> LF -> P s -> P (skip s).
Hypothesis Hline : forall s, peek s = LF -> P s -> P (set_line (S (line s)) (skip s)).
Hypothesis Hadd :
  forall s ty lit, token_form P c s ty lit -> P s -> Q (addToken ty lit s).
Hypothesis Hend : forall s, P s -> Q s.

Lemma skip_digit (s : t) : isDigit (peek s) = true -> P s -> P (skip s).
Proof.
  intros H. apply Hskip.
  - apply peek_not_NUL. intros E. rewrite E in H. discriminate.
  - intros E. rewrite E in H. discriminate.
Qed.

Lemma skip_alnum (s : t) : isAlphaNumeric (peek s) = true -> P s -> P (skip s).
Proof.
  intros H. apply Hskip.
  - apply peek_not_NUL. intros E. rewrite E in H. discriminate.
  - intros E. rewrite E in H. discriminate.
Qed.

Lemma skip_char (ch : ascii) (s : t) :
  ch <> LF -> ch <> NUL -> peek s = ch -> P s -> P (skip s).
Proof.
  intros H1 H2 Hp. apply Hskip.
  - apply peek_not_NUL. congruence.
  - congruence.
Qed.

Lemma string_preserves (fuel : nat) (sc sc' : t) (w w' : World) :
  c = Some QUOTE -> P sc ->
  string_ fuel sc w = Some (sc', w') -> Q sc' /\ said w w'.
Proof.
  intros Hc HP H. unfold string_ in H.
  match type of H with context [while fuel ?cond ?body sc] =>
    destruct (while fuel cond body sc) as [sc1|] eqn:Hw; [|discriminate];
    apply (while_inv P cond body) in Hw as [HP1 Hcond]; [| |exact HP]
  end.
  - destruct (isAtEnd sc1) eqn:He.
    + injection H as <- <-. split; [now apply Hend | right; eauto].
    + injection H as <- <-. split; [|now left].
      cbv beta in Hcond. rewrite ?He in Hcond. cbn in Hcond.
      rewrite andb_true_r in Hcond.
      apply negb_false_iff, Ascii.eqb_eq in Hcond.
      apply Hadd.
      * now apply (form_string P c (skip sc1) sc1).
      * apply Hskip; [exact He | rewrite Hcond; discriminate | exact HP1].
  - intros s Hs Hcond. apply andb_prop in Hcond as [_ Hend'].
    apply negb_true_iff in Hend'.
    destruct (Ascii.eqb (peek s) LF) eqn:E.
    + apply Ascii.eqb_eq in E. exact (Hline s E Hs).
    + apply Ascii.eqb_neq in E. exact (Hskip s Hend' E Hs).
Qed.

Lemma number_preserves (fuel : nat) (sc sc' : t) :
  P sc -> number fuel sc = Some sc' -> Q sc'.
Proof.
  intros HP H. unfold number in H.
  destruct (while fuel (fun s => isDigit (peek s)) skip sc) as [sc1|] eqn:Hw;
    [|discriminate].
  apply (while_inv P) in Hw as [HP1 _]; [| |exact HP].
  2:{ intros s Hs Hd. now apply skip_digit. }
  destruct (Ascii.eqb (peek sc1) "." && isDigit (peekNext sc1)) eqn:Hdot.
  - destruct (while fuel (fun s => isDigit (peek s)) skip (skip sc1)) as [sc2|] eqn:Hw2;
      [|discriminate].
    apply (while_inv P) in Hw2 as [HP2 _].
    + injection H as <-. apply Hadd; [apply form_number | exact HP2].
    + intros s Hs Hd. now apply skip_digit.
    + apply andb_prop in Hdot as [Hdot _]. apply Ascii.eqb_eq in Hdot.
      apply (skip_char "." sc1); [discriminate | discriminate | exact Hdot | exact HP1].
  - injection H as <-. apply Hadd; [apply form_number | exact HP1].
Qed.

Lemma identifier_preserves (fuel : nat) (sc sc' : t) :
  P sc -> identifier fuel sc = Some sc' -> Q sc'.
Proof.
  intros HP H. unfold identifier in H.
  destruct (while fuel (fun s => isAlphaNumeric (peek s)) skip sc) as [sc1|] eqn:Hw;
    [|discriminate].
  apply (while_inv P) in Hw as [HP1 _]; [| |exact HP].
  2:{ intros s Hs Hd. now apply skip_alnum. }
  injection H as <-. apply Hadd; [|exact HP1].
  destruct (KEYWORDS_get _) as [ty|] eqn:Hk.
  - unfold KEYWORDS_get in Hk.
    destruct (own_property _ KEYWORDS) as [kw|] eqn:Hown.
    + injection Hk as <-. apply ScannerFacts.own_property_In in Hown.
      cbn in Hown.
      decompose [or] Hown; subst; try contradiction; apply form_plain; discriminate.
    + destruct (existsb _ _); [|discriminate]. injection Hk as <-.
      apply form_plain; discriminate.
  - apply form_plain; discriminate.
Qed.

Lemma char_is_true (ch : ascii) : char_is c ch = true -> c = Some ch.
Proof.
  unfold char_is. destruct c as [c'|]; [|discriminate].
  intros H. apply Ascii.eqb_eq in H. now subst.
Qed.

Ltac leaf_plain HP0 :=
  match goal with
  | H : Some (_, _) = Some (_, _) |- _ =>
      injection H as <- <-; split;
      [first [apply Hadd; [apply form_plain; discriminate | exact HP0]
             |apply Hend; exact HP0]
      |first [now left | right; eauto]]
  end.

Ltac leaf_two sc0 HP0 :=
  match goal with
  | H : context [match_ ?x sc0] |- _ =>
      let Hm := fresh "Hm" in
      let Hp := fresh "Hp" in
      let He := fresh "He" in
      destruct (match_spec x sc0) as [Hm | (Hm & Hp & He)]; rewrite Hm in H;
      injection H as <- <-; (split; [|now left]);
      (apply Hadd; [apply form_plain; discriminate|]);
      [exact HP0 | apply Hskip; [exact He | rewrite Hp; discriminate | exact HP0]]
  end.

(** [scanToken], begun at the character [c], takes [P] to [Q] and calls
    [error] at most once. *)
Lemma scanToken_preserves (fuel : nat) (sc sc' : t) (w w' : World) :
  c = JsString.at_index (source sc) (current sc) ->
  (peek sc <> LF -> P (skip sc)) ->
  (peek sc = LF -> Q (set_line (S (line sc)) (skip sc))) ->
  scanToken fuel sc w = Some (sc', w') ->
  Q sc' /\ said w w'.
Proof.
  intros Hc Hinit_skip Hinit_line H.
  cbv beta iota zeta delta [scanToken advance] in H. rewrite <- Hc in H.
  destruct (Ascii.eqb (peek sc) LF) eqn:E.
  - apply Ascii.eqb_eq in E. pose proof (proj1 (peek_LF sc) E) as Hget.
    rewrite <- Hc in Hget. rewrite Hget in H. cbn in H.
    injection H as <- <-. split; [|now left].
    exact (Hinit_line E).
  - apply Ascii.eqb_neq in E.
    assert (HP0 : P (set_current (S (current sc)) sc)) by exact (Hinit_skip E).
    assert (Hne : c <> Some LF).
    { intros Hget. rewrite Hc in Hget. apply peek_LF in Hget. contradiction. }
    remember (set_current (S (current sc)) sc) as sc0 eqn:Hsc0.
    clear Hsc0 Hinit_skip Hinit_line Hc E.
    do 10 (match type of H with context [if char_is c ?x then _ else _] =>
             destruct (char_is c x); [leaf_plain HP0|] end).
    do 4 (match type of H with context [if char_is c ?x then _ else _] =>
            destruct (char_is c x); [leaf_two sc0 HP0|] end).
    destruct (char_is c "/").
    { destruct (match_spec "/" sc0) as [Hm | (Hm & Hp & He)]; rewrite Hm in H.
      - leaf_plain HP0.
      - match type of H with context [while fuel ?cond ?body ?s] =>
          destruct (while fuel cond body s) as [sc2|] eqn:Hw; [|discriminate];
          apply (while_inv P cond body) in Hw as [HP2 _]
        end.
        + leaf_plain HP2.
        + intros s Hs Hcond. apply andb_prop in Hcond as [Hcond Hend'].
          apply negb_true_iff, Ascii.eqb_neq in Hcond.
          apply negb_true_iff in Hend'. now apply Hskip.
        + apply Hskip; [exact He | rewrite Hp; discriminate | exact HP0]. }
    destruct (char_is c " " || char_is c CR || char_is c TAB); [leaf_plain HP0|].
    destruct (char_is c LF) eqn:Elf.
    { apply char_is_true in Elf. contradiction. }
    destruct (char_is c QUOTE) eqn:Eq.
    { apply char_is_true in Eq. exact (string_preserves fuel sc0 sc' w w' Eq HP0 H). }
    assert (Hcase : c = None \/ exists c', c = Some c')
      by (destruct c as [c'|]; [right; now exists c' | now left]).
    destruct Hcase as [Hnone | [c' Hsome]];
      [rewrite Hnone in H; leaf_plain HP0 | rewrite Hsome in H].
    destruct (isDigit c').
    { destruct (number fuel sc0) as [sc1|] eqn:Hn; [|discriminate].
      injection H as <- <-. split; [|now left].
      exact (number_preserves fuel sc0 sc1 HP0 Hn). }
    destruct (isAlpha c'); [|leaf_plain HP0].
    destruct (identifier fuel sc0) as [sc1|] eqn:Hn; [|discriminate].
    injection H as <- <-. split; [|now left].
    exact (identifier_preserves fuel sc0 sc1 HP0 Hn).
Qed.

End Preserves.

(** *** Pieces of a text *)

Lemma substring_head (s : string) :
  forall (n m : nat) (c : ascii),
    String.get n s = Some c ->
    String.substring n (S m) s = String c (String.substring (S n) m s).
Proof.
  induction s as [|a s IH]; intros n m c H; [destruct n; discriminate|].
  destruct n as [|n]; cbn in H |- *.
  - injection H as <-. reflexivity.
  - rewrite (IH n m c H). reflexivity.
Qed.

Lemma substring_last (s : string) :
  forall (n m : nat) (c : ascii),
    String.get (n + m) s = Some c ->
    String.substring n (S m) s = String.substring n m s ++ String c EmptyString.
Proof.
  induction s as [|a s IH]; intros n m c H; [destruct (n + m); discriminate|].
  destruct n as [|n].
  - destruct m as [|m]; cbn in H.
    + injection H as <-. cbn. now destruct s.
    + cbn [String.substring]. rewrite (IH 0 m c H). reflexivity.
  - cbn in H. cbn [String.substring]. exact (IH n m c H).
Qed.

Lemma js_substring_le (a b : nat) (s : string) :
  a <= b -> b <= String.length s ->
  JsString.substring a b s = String.substring a (b - a) s.
Proof.
  intros H1 H2. unfold JsString.substring.
  rewrite (Nat.min_l a), (Nat.min_l b), (Nat.min_l a b), (Nat.max_r a b) by lia.
  reflexivity.
Qed.

(** A piece that begins and ends on a quote is its inside, quoted. *)
Lemma quoted_piece (s : string) (p q : nat) :
  String.get p s = Some QUOTE -> String.get q s = Some QUOTE -> p < q ->
  JsString.substring p (S q) s = quoted (JsString.substring (p + 1) (S q - 1) s).
Proof.
  intros Hp Hq Hlt. pose proof (get_Some_lt s q QUOTE Hq) as Hlen.
  rewrite !js_substring_le by lia.
  replace (S q - p) with (S (S (q - p - 1))) by lia.
  replace (S q - 1 - (p + 1)) with (q - p - 1) by lia.
  rewrite (substring_head s p _ QUOTE Hp).
  rewrite (substring_last s (S p) (q - p - 1) QUOTE)
    by (replace (S p + (q - p - 1)) with q by lia; exact Hq).
  replace (p + 1) with (S p) by lia. reflexivity.
Qed.

Lemma piece_not_empty (s : string) (p q : nat) :
  p < q -> q <= String.length s -> JsString.substring p q s <> EmptyString.
Proof.
  intros H1 H2. rewrite js_substring_le by lia.
  destruct (get_lt_Some s p) as (c & Hc); [lia|].
  replace (q - p) with (S (q - p - 1)) by lia.
  rewrite (substring_head s p _ c Hc). discriminate.
Qed.

(** *** Line feeds *)

Lemma newlines_upto_cons (a : ascii) (s : string) (n : nat) :
  newlines_upto (S n) (String a s) =
  (if Ascii.eqb a LF then 1 else 0) + newlines_upto n s.
Proof.
  induction n as [|n IH]; [cbn; lia|].
  cbn [newlines_upto] in IH |- *. rewrite IH.
  unfold JsString.at_index. cbn [String.get].
  destruct (String.get n s) as [c|]; [destruct (Ascii.eqb c LF)|]; lia.
Qed.

Lemma newlines_upto_length (s : string) :
  newlines_upto (String.length s) s = newlines s.
Proof.
  induction s as [|a s IH]; [reflexivity|].
  cbn [String.length newlines]. now rewrite newlines_upto_cons, IH.
Qed.

Lemma newlines_upto_mono (s : string) (n m : nat) :
  n <= m -> newlines_upto n s <= newlines_upto m s.
Proof.
  induction 1 as [|m Hle IH]; [lia|]. cbn [newlines_upto]. lia.
Qed.

Lemma newlines_upto_le (s : string) (n : nat) :
  n <= String.length s -> newlines_upto n s <= newlines s.
Proof.
  intros H. rewrite <- newlines_upto_length. now apply newlines_upto_mono.
Qed.

Lemma balanced_skip (s : t) : peek s <> LF -> balanced s -> balanced (skip s).
Proof.
  unfold balanced. cbn [skip advance snd set_current source current line newlines_upto].
  intros Hp ->.
  destruct (JsString.at_index (source s) (current s)) as [c|] eqn:Hget; [|lia].
  destruct (Ascii.eqb c LF) eqn:E; [|lia].
  apply Ascii.eqb_eq in E. subst c. apply peek_LF in Hget. contradiction.
Qed.

Lemma balanced_line (s : t) :
  peek s = LF -> balanced s -> balanced (set_line (S (line s)) (skip s)).
Proof.
  unfold balanced.
  cbn [skip advance snd set_current set_line source current line newlines_upto].
  intros Hp ->. apply peek_LF in Hp. rewrite Hp. cbn. lia.
Qed.

(** *** One token *)

Lemma within_skip src p c toks (s : t) :
  isAtEnd s = false -> peek s <> LF ->
  within_token src p c toks s -> within_token src p c toks (skip s).
Proof.
  intros He Hp (Hs & Hst & Ht & Hc & Hcur & Hb).
  apply ScannerFacts.not_at_end in He. rewrite Hs in He.
  unfold within_token. cbn [skip advance snd set_current source start tokens current].
  repeat (split; [assumption || lia|]). now apply balanced_skip.
Qed.

Lemma within_line src p c toks (s : t) :
  peek s = LF ->
  within_token src p c toks s ->
  within_token src p c toks (set_line (S (line s)) (skip s)).
Proof.
  intros Hp (Hs & Hst & Ht & Hc & Hcur & Hb).
  assert (He : isAtEnd s = false)
    by (apply peek_not_NUL; rewrite Hp; discriminate).
  apply ScannerFacts.not_at_end in He. rewrite Hs in He.
  unfold within_token.
  cbn [skip advance snd set_current set_line source start tokens current].
  repeat (split; [assumption || lia|]). now apply balanced_line.
Qed.

Lemma line_in_range src (s : t) :
  source s = src -> current s <= String.length src -> balanced s ->
  1 <= line s <= 1 + newlines src.
Proof.
  intros Hs Hc Hb. unfold balanced in Hb. rewrite Hs in Hb.
  pose proof (newlines_upto_le src (current s) Hc). lia.
Qed.

Lemma plain_decodes (ty : TypeValue) (lexeme : string) (line : nat) :
  ty <> Kind NUMBER -> ty <> Kind STRING ->
  literal_decodes (Token.mk ty lexeme VNull line).
Proof.
  intros H1 H2. unfold literal_decodes. cbn.
  destruct ty as [k|key]; [|reflexivity].
  destruct k; try reflexivity; congruence.
Qed.

Lemma within_add src p c toks (s : t) (ty : TypeValue) (lit : Value) :
  token_form (within_token src p c toks) c s ty lit ->
  within_token src p c toks s ->
  after_token src p toks (addToken ty lit s).
Proof.
  intros Hform (Hs & Hst & Ht & Hc & Hcur & Hb).
  unfold after_token. cbn [addToken push source current tokens].
  split; [exact Hs|]. split; [exact Hcur|]. split; [exact Hb|].
  right. eexists. split; [rewrite Ht; reflexivity|].
  rewrite Hs, Hst. unfold token_of. cbn [Token.lexeme Token.type Token.line].
  split; [eauto|]. split; [apply piece_not_empty; lia|].
  split; [|split; [|now apply line_in_range]].
  - destruct Hform as [ty H1 H2 H3| |before Hq Hsk Hbefore Hpeek Hend].
    + now apply plain_decodes.
    + unfold literal_decodes. cbn. now rewrite Hs, Hst.
    + unfold literal_decodes. cbn. eexists. split; [reflexivity|].
      destruct Hbefore as (Hs' & Hst' & _ & Hc' & Hcur' & _).
      subst s. cbn [skip advance snd set_current source start current] in *.
      rewrite Hs', Hst'.
      pose proof (peek_spec before) as Hp. rewrite Hs' in Hp.
      unfold JsString.at_index in *.
      destruct (String.get (current before) src) as [q|] eqn:Hget;
        destruct Hp as [Hp Hp']; [|congruence].
      apply quoted_piece; [congruence | congruence | lia].
  - destruct Hform; congruence.
Qed.

(** [scanToken] between two tokens: at most one token more, each as
    [token_of] says, and at most one call of [error]. *)
Lemma scanToken_between src (fuel : nat) (sc sc' : t) (w w' : World) :
  between_tokens src sc -> isAtEnd sc = false ->
  scanToken fuel (set_start (current sc) sc) w = Some (sc', w') ->
  between_tokens src sc' /\ said w w'.
Proof.
  intros (Hs & Hcur & Hb & Htoks & Hlen) He H.
  pose proof He as Hlt. apply ScannerFacts.not_at_end in Hlt. rewrite Hs in Hlt.
  assert (Hend : forall s,
             within_token src (current sc) (JsString.at_index src (current sc))
               (tokens sc) s ->
             after_token src (current sc) (tokens sc) s).
  { intros s (H1 & H2 & H3 & H4 & H5 & H6). unfold after_token. auto. }
  destruct (scanToken_preserves
              (within_token src (current sc) (JsString.at_index src (current sc)) (tokens sc))
              (after_token src (current sc) (tokens sc))
              (JsString.at_index src (current sc))
              (within_skip src _ _ _) (within_line src _ _ _) (within_add src _ _ _)
              Hend fuel (set_start (current sc) sc) sc' w w') as [HQ Hsaid].
  - cbn. now rewrite Hs.
  - intros Hp. unfold within_token.
    cbn [skip advance snd set_current set_start source start tokens current].
    repeat (split; [reflexivity || assumption || lia|]).
    now apply (balanced_skip (set_start (current sc) sc)).
  - intros Hp. unfold after_token.
    cbn [skip advance snd set_current set_start set_line source start tokens current].
    split; [exact Hs|]. split; [lia|]. split; [|now left].
    now apply (balanced_line (set_start (current sc) sc)).
  - exact H.
  - split; [|exact Hsaid].
    destruct HQ as (Hs' & Hcur' & Hb' & Htok').
    unfold between_tokens. repeat (split; [assumption || lia|]).
    destruct Htok' as [-> | (tok & -> & Htok)].
    + split; [exact Htoks | lia].
    + split.
      * apply Forall_app. split; [exact Htoks | now constructor].
      * rewrite length_app. cbn. lia.
Qed.

Lemma said_reported (w w' : World) : said w w' -> reported w w'.
Proof.
  intros [-> | (l & m & ->)]; [constructor|].
  unfold error. constructor. constructor.
Qed.

Lemma reported_trans (w1 w2 w3 : World) :
  reported w1 w2 -> reported w2 w3 -> reported w1 w3.
Proof. intros H12 H23. induction H23; [exact H12 | constructor; auto]. Qed.

#[local] Arguments scanToken : simpl never.

Lemma scanLoop_between src (fuel : nat) :
  forall (n : nat) (sc sc' : t) (w w' : World),
    between_tokens src sc ->
    scanLoop n fuel sc w = Some (sc', w') ->
    between_tokens src sc' /\ isAtEnd sc' = true /\ reported w w'.
Proof.
  induction n as [|n IH]; intros sc sc' w w' HI H; [discriminate|].
  cbn in H. destruct (isAtEnd sc) eqn:He; cbn in H.
  - injection H as <- <-. split; [exact HI|]. split; [exact He | constructor].
  - destruct (scanToken fuel (set_start (current sc) sc) w) as [[sc1 w1]|] eqn:Hs;
      [|discriminate].
    destruct (scanToken_between src fuel sc sc1 w w1 HI He Hs) as [HI1 Hsaid].
    destruct (IH _ _ _ _ HI1 H) as (HI' & He' & Hr).
    split; [exact HI'|]. split; [exact He'|].
    exact (reported_trans _ _ _ (said_reported _ _ Hsaid) Hr).
Qed.

Lemma between_new (src : string) : between_tokens src (new src).
Proof.
  unfold between_tokens, balanced. cbn. repeat split; try lia. constructor.
Qed.

(** What a scan that ended has built. *)
Lemma scanTokens_result (fuel : nat) (src : string) (w w' : World) (toks : list Token) :
  scanTokens fuel (new src) w = Some (toks, w') ->
  exists sc : t,
    toks = (tokens sc ++ [Token.mk (Kind EOF) "" VNull (line sc)])%list /\
    Forall (token_of src) (tokens sc) /\
    List.length (tokens sc) <= String.length src /\
    line sc = 1 + newlines src /\
    reported w w'.
Proof.
  unfold scanTokens. intros H.
  destruct (scanLoop fuel fuel (new src) w) as [[sc w1]|] eqn:Hloop; [|discriminate].
  injection H as <- <-.
  destruct (scanLoop_between src fuel fuel _ _ _ _ (between_new src) Hloop)
    as ((Hs & Hcur & Hb & Htoks & Hlen) & He & Hr).
  exists sc. cbn [push tokens]. repeat split; try assumption; try lia.
  unfold isAtEnd in He. apply Nat.leb_le in He. rewrite Hs in He.
  unfold balanced in Hb. rewrite Hb, Hs.
  replace (current sc) with (String.length src) by lia.
  now rewrite newlines_upto_length.
Qed.

End ScannerSteps.

(** * Further properties of the parser *)

Module ParserMore.

Import Parser ParserInv ParseNotions.

#[local] Arguments match_ : simpl never.

Lemma skipn_token (tokens : list Token) :
  forall (cur : nat) (tok : Token),
    token_at tokens cur = Some tok ->
    skipn cur tokens = tok :: skipn (S cur) tokens.
Proof.
  unfold token_at. induction tokens as [|a l IH]; intros cur tok H.
  - destruct cur; discriminate.
  - destruct cur as [|i]; cbn in H |- *.
    + now injection H as ->.
    + exact (IH i tok H).
Qed.

Section WithTokens.

Variable tokens : list Token.

(** A successful [match_] followed by [previous()]: the token stepped over. *)
Lemma match_then_previous {A : Type} (types : list TokenType) (k : Token -> M A)
    cur w cur1 w1 (a : A) cur' w' :
  match_ tokens types cur w = Returned true cur1 w1 ->
  bind (previous_operator tokens) k cur1 w1 = Returned a cur' w' ->
  exists tok ty,
    token_at tokens cur = Some tok /\ In ty types /\ Token.type tok = Kind ty /\
    k tok (S cur) w = Returned a cur' w'.
Proof.
  intros Hm Hk.
  apply ParserFacts.match_true in Hm as (tok & ty & Htok & Hin & Hty & -> & ->).
  exists tok, ty. repeat split; try assumption.
  unfold bind, previous_operator, previous, ret in Hk. cbn in Hk.
  now rewrite Htok in Hk.
Qed.

Lemma match_then_literal {A : Type} (types : list TokenType) (k : Value -> M A)
    cur w cur1 w1 (a : A) cur' w' :
  match_ tokens types cur w = Returned true cur1 w1 ->
  bind (previous_literal tokens) k cur1 w1 = Returned a cur' w' ->
  exists tok ty,
    token_at tokens cur = Some tok /\ In ty types /\ Token.type tok = Kind ty /\
    k (Token.literal tok) (S cur) w = Returned a cur' w'.
Proof.
  intros Hm Hk.
  apply ParserFacts.match_true in Hm as (tok & ty & Htok & Hin & Hty & -> & ->).
  exists tok, ty. repeat split; try assumption.
  unfold bind, previous_literal, previous, ret in Hk. cbn in Hk.
  now rewrite Htok in Hk.
Qed.

Lemma consume_Returned (ty : TokenType) (message : string) cur w x cur' w' :
  consume tokens ty message cur w = Returned x cur' w' ->
  exists tok,
    token_at tokens cur = Some tok /\ Token.type tok = Kind ty /\
    cur' = S cur /\ w' = w.
Proof.
  unfold consume, bind at 1. rewrite ParserFacts.check_spec.
  destruct (token_at tokens cur) as [tok|] eqn:Htok; [|discriminate].
  destruct (negb (type_is (Token.type tok) EOF) && type_is (Token.type tok) ty) eqn:Hc.
  - apply andb_prop in Hc as [Hend Hty]. apply negb_true_iff in Hend.
    rewrite (ParserFacts.advance_spec tokens cur w tok Htok Hend).
    intros H. injection H as _ <- <-. apply type_is_true in Hty. now exists tok.
  - unfold bind, peek, error_, report_, ret, throw. rewrite Htok.
    destruct (type_is (Token.type tok) EOF); discriminate.
Qed.

(** *** Precedence and associativity *)

Lemma nested_weaken (k k' : nat) (e : Expr) :
  k' <= k -> nested_at k e -> nested_at k' e.
Proof. intros Hk [H1 H2]. split; [exact H1 | lia]. Qed.

Lemma binary_loop_nested (types : list TokenType) (operand : M Expr) (k : nat) :
  (forall ty, In ty types -> operator_level (Kind ty) = k) -> 1 <= k ->
  yields (nested_at (S k)) operand ->
  forall (n : nat) (expr : Expr),
    nested_at k expr ->
    yields (nested_at k) (binary_loop tokens n types operand expr).
Proof.
  intros Hlevel Hk Hoperand.
  induction n as [|n IH]; intros expr Hexpr cur w e cur' w' H; [discriminate|].
  cbn in H. apply ParserFacts.bind_Returned in H as ([|] & cur1 & w1 & Hm & H).
  - destruct (match_then_previous _ _ _ _ _ _ _ _ _ Hm H)
      as (tok & ty & _ & Hin & Hty & Hk').
    apply ParserFacts.bind_Returned in Hk' as (right & cur2 & w2 & Hr & Hk').
    apply (IH (Binary expr tok right)) in Hk'; [exact Hk'|].
    destruct Hexpr as [He1 He2]. destruct (Hoperand _ _ _ _ _ Hr) as [Hr1 Hr2].
    unfold nested_at. cbn [well_nested expr_level]. rewrite Hty, (Hlevel ty Hin).
    repeat split; try assumption; lia.
  - unfold ret in H. injection H as <- _ _. exact Hexpr.
Qed.

Ltac levels := intros ty Hin; cbn in Hin; decompose [or] Hin; subst;
  try contradiction; reflexivity.

Lemma grammar_nested (fuel : nat) :
  yields (nested_at 1) (expression tokens fuel) /\
  yields (nested_at 1) (equality tokens fuel) /\
  yields (nested_at 2) (comparison tokens fuel) /\
  yields (nested_at 3) (term tokens fuel) /\
  yields (nested_at 4) (factor tokens fuel) /\
  yields (nested_at 5) (unary tokens fuel) /\
  yields (nested_at 6) (primary tokens fuel).
Proof.
  induction fuel as [|f (IHe & IHq & IHc & IHt & IHf & IHu & IHp)].
  - refine (conj _ (conj _ (conj _ (conj _ (conj _ (conj _ _))))));
      intros cur w e cur' w' H; discriminate.
  - refine (conj _ (conj _ (conj _ (conj _ (conj _ (conj _ _))))));
      intros cur w e cur' w' H; cbn in H.
    + exact (IHq _ _ _ _ _ H).
    + apply ParserFacts.bind_Returned in H as (expr & cur1 & w1 & H1 & H).
      refine (binary_loop_nested _ _ 1 _ _ IHc f expr _ _ _ _ _ _ H);
        [levels | lia | exact (nested_weaken 2 1 _ ltac:(lia) (IHc _ _ _ _ _ H1))].
    + apply ParserFacts.bind_Returned in H as (expr & cur1 & w1 & H1 & H).
      refine (binary_loop_nested _ _ 2 _ _ IHt f expr _ _ _ _ _ _ H);
        [levels | lia | exact (nested_weaken 3 2 _ ltac:(lia) (IHt _ _ _ _ _ H1))].
    + apply ParserFacts.bind_Returned in H as (expr & cur1 & w1 & H1 & H).
      refine (binary_loop_nested _ _ 3 _ _ IHf f expr _ _ _ _ _ _ H);
        [levels | lia | exact (nested_weaken 4 3 _ ltac:(lia) (IHf _ _ _ _ _ H1))].
    + apply ParserFacts.bind_Returned in H as (expr & cur1 & w1 & H1 & H).
      refine (binary_loop_nested _ _ 4 _ _ IHu f expr _ _ _ _ _ _ H);
        [levels | lia | exact (nested_weaken 5 4 _ ltac:(lia) (IHu _ _ _ _ _ H1))].
    + apply ParserFacts.bind_Returned in H as ([|] & cur1 & w1 & Hm & H).
      * destruct (match_then_previous _ _ _ _ _ _ _ _ _ Hm H)
          as (tok & ty & _ & Hin & Hty & Hk).
        apply ParserFacts.bind_Returned in Hk as (right & cur2 & w2 & Hr & Hk).
        unfold ret in Hk. injection Hk as <- _ _.
        destruct (IHu _ _ _ _ _ Hr) as [Hr1 Hr2].
        unfold nested_at. cbn. auto.
      * exact (nested_weaken 6 5 _ ltac:(lia) (IHp _ _ _ _ _ H)).
    + apply ParserFacts.bind_Returned in H as ([|] & cur1 & w1 & _ & H);
        [unfold ret in H; injection H as <- _ _; split; [exact I | cbn; lia]|].
      apply ParserFacts.bind_Returned in H as ([|] & cur2 & w2 & _ & H);
        [unfold ret in H; injection H as <- _ _; split; [exact I | cbn; lia]|].
      apply ParserFacts.bind_Returned in H as ([|] & cur3 & w3 & _ & H);
        [unfold ret in H; injection H as <- _ _; split; [exact I | cbn; lia]|].
      apply ParserFacts.bind_Returned in H as ([|] & cur4 & w4 & _ & H).
      { apply ParserFacts.bind_Returned in H as (value & cur5 & w5 & _ & H).
        unfold ret in H; injection H as <- _ _; split; [exact I | cbn; lia]. }
      apply ParserFacts.bind_Returned in H as ([|] & cur5 & w5 & _ & H).
      * apply ParserFacts.bind_Returned in H as (expr & cur6 & w6 & He & H).
        apply ParserFacts.bind_Returned in H as (tok & cur7 & w7 & _ & H).
        unfold ret in H; injection H as <- _ _.
        split; [exact (proj1 (IHe _ _ _ _ _ He)) | cbn; lia].
      * apply ParserFacts.bind_Returned in H as (tok & cur6 & w6 & _ & H).
        apply ParserFacts.bind_Returned in H as (err & cur7 & w7 & _ & H).
        discriminate.
Qed.

(** *** The tokens of a tree *)

Lemma binary_loop_consumes (types : list TokenType) (operand : M Expr) :
  consumes tokens operand ->
  forall (n : nat) (expr : Expr) (before : list Token) (from cur : nat) w e cur' w',
    spells expr before ->
    skipn from tokens = (before ++ skipn cur tokens)%list ->
    binary_loop tokens n types operand expr cur w = Returned e cur' w' ->
    exists toks,
      spells e toks /\ skipn from tokens = (toks ++ skipn cur' tokens)%list.
Proof.
  intros Hoperand.
  induction n as [|n IH]; intros expr before from cur w e cur' w' Hexpr Hskip H;
    [discriminate|].
  cbn in H. apply ParserFacts.bind_Returned in H as ([|] & cur1 & w1 & Hm & H).
  - destruct (match_then_previous _ _ _ _ _ _ _ _ _ Hm H)
      as (tok & ty & Htok & _ & _ & Hk).
    apply ParserFacts.bind_Returned in Hk as (right & cur2 & w2 & Hr & Hk).
    destruct (Hoperand _ _ _ _ _ Hr) as (tr & Hsr & Hskr).
    apply (IH (Binary expr tok right) (before ++ tok :: tr)%list from) in Hk;
      [exact Hk | now constructor |].
    rewrite Hskip, (skipn_token tokens cur tok Htok), Hskr.
    rewrite <- app_assoc. reflexivity.
  - apply ParserFacts.match_false in Hm as [-> ->].
    unfold ret in H. injection H as <- <- _. now exists before.
Qed.

Lemma level_consumes (types : list TokenType) (operand : M Expr) (n : nat) :
  consumes tokens operand ->
  consumes tokens (bind operand (binary_loop tokens n types operand)).
Proof.
  intros Hoperand cur w e cur' w' H.
  apply ParserFacts.bind_Returned in H as (expr & cur1 & w1 & H1 & H).
  destruct (Hoperand _ _ _ _ _ H1) as (before & Hs & Hsk).
  exact (binary_loop_consumes types operand Hoperand n expr before cur cur1
           w1 e cur' w' Hs Hsk H).
Qed.

Lemma literal_consumes (ty : TokenType) (v : Value) cur w cur1 w1 :
  (forall tok, Token.type tok = Kind ty -> literal_token tok v) ->
  match_ tokens [ty] cur w = Returned true cur1 w1 ->
  cur1 = S cur /\
  exists toks, spells (Literal v) toks /\
               skipn cur tokens = (toks ++ skipn (S cur) tokens)%list.
Proof.
  intros Hlit Hm.
  apply ParserFacts.match_true in Hm as (tok & ty' & Htok & [<-|[]] & Hty & -> & _).
  split; [reflexivity|]. exists [tok]. split.
  - constructor. now apply Hlit.
  - now apply skipn_token.
Qed.

Lemma grammar_consumes (fuel : nat) :
  consumes tokens (expression tokens fuel) /\
  consumes tokens (equality tokens fuel) /\
  consumes tokens (comparison tokens fuel) /\
  consumes tokens (term tokens fuel) /\
  consumes tokens (factor tokens fuel) /\
  consumes tokens (unary tokens fuel) /\
  consumes tokens (primary tokens fuel).
Proof.
  induction fuel as [|f (IHe & IHq & IHc & IHt & IHf & IHu & IHp)].
  - refine (conj _ (conj _ (conj _ (conj _ (conj _ (conj _ _))))));
      intros cur w e cur' w' H; discriminate.
  - refine (conj _ (conj _ (conj _ (conj _ (conj _ (conj _ _)))))).
    + exact IHq.
    + exact (level_consumes _ _ f IHc).
    + exact (level_consumes _ _ f IHt).
    + exact (level_consumes _ _ f IHf).
    + exact (level_consumes _ _ f IHu).
    + intros cur w e cur' w' H. cbn in H.
      apply ParserFacts.bind_Returned in H as ([|] & cur1 & w1 & Hm & H).
      * destruct (match_then_previous _ _ _ _ _ _ _ _ _ Hm H)
          as (tok & ty & Htok & _ & _ & Hk).
        apply ParserFacts.bind_Returned in Hk as (right & cur2 & w2 & Hr & Hk).
        unfold ret in Hk. injection Hk as <- <- _.
        destruct (IHu _ _ _ _ _ Hr) as (tr & Hsr & Hskr).
        exists (tok :: tr). split; [now constructor|].
        now rewrite (skipn_token tokens cur tok Htok), Hskr.
      * apply ParserFacts.match_false in Hm as [-> ->].
        exact (IHp _ _ _ _ _ H).
    + intros cur w e cur' w' H. cbn in H.
      apply ParserFacts.bind_Returned in H as ([|] & cur1 & w1 & Hm & H).
      { unfold ret in H. injection H as <- <- _.
        apply (literal_consumes FALSE (VBoolean false)) in Hm as [-> Hm];
          [exact Hm | intros tok Hty; left; auto]. }
      apply ParserFacts.match_false in Hm as [-> ->].
      apply ParserFacts.bind_Returned in H as ([|] & cur2 & w2 & Hm & H).
      { unfold ret in H. injection H as <- <- _.
        apply (literal_consumes TRUE (VBoolean true)) in Hm as [-> Hm];
          [exact Hm | intros tok Hty; right; left; auto]. }
      apply ParserFacts.match_false in Hm as [-> ->].
      apply ParserFacts.bind_Returned in H as ([|] & cur3 & w3 & Hm & H).
      { unfold ret in H. injection H as <- <- _.
        apply (literal_consumes NIL VNull) in Hm as [-> Hm];
          [exact Hm | intros tok Hty; right; right; left; auto]. }
      apply ParserFacts.match_false in Hm as [-> ->].
      apply ParserFacts.bind_Returned in H as ([|] & cur4 & w4 & Hm & H).
      { destruct (match_then_literal _ _ _ _ _ _ _ _ _ Hm H)
          as (tok & ty & Htok & Hin & Hty & Hk).
        unfold ret in Hk. injection Hk as <- <- _.
        exists [tok]. split; [|now apply skipn_token].
        constructor. right; right; right. split; [|reflexivity].
        destruct Hin as [<-|[<-|[]]]; auto. }
      apply ParserFacts.match_false in Hm as [-> ->].
      apply ParserFacts.bind_Returned in H as ([|] & cur5 & w5 & Hm & H).
      * apply ParserFacts.match_true in Hm as (lp & ty & Hlp & [<-|[]] & Hty & -> & ->).
        apply ParserFacts.bind_Returned in H as (expr & cur6 & w6 & He & H).
        apply ParserFacts.bind_Returned in H as (x & cur7 & w7 & Hc & H).
        apply consume_Returned in Hc as (rp & Hrp & Htyr & -> & ->).
        unfold ret in H. injection H as <- <- _.
        destruct (IHe _ _ _ _ _ He) as (toks & Hs & Hsk).
        exists (lp :: toks ++ [rp])%list. split; [now constructor|].
        rewrite (skipn_token tokens cur lp Hlp), Hsk, (skipn_token tokens cur6 rp Hrp).
        cbn. now rewrite <- app_assoc.
      * apply ParserFacts.bind_Returned in H as (tok & cur6 & w6 & _ & H).
        apply ParserFacts.bind_Returned in H as (err & cur7 & w7 & _ & H).
        discriminate.
Qed.

(** A tree spells at least as many tokens as it is high. *)
Lemma spells_height (e : Expr) (toks : list Token) :
  spells e toks -> height e <= List.length toks.
Proof.
  induction 1 as [tok v H | lp rp e toks H1 H2 H IH | o r toks H IH
                 | l r o tl tr Hl IHl Hr IHr]; cbn [height].
  - cbn. lia.
  - cbn. rewrite length_app. cbn. lia.
  - cbn. lia.
  - rewrite length_app. cbn. lia.
Qed.

(** *** The world after a parse *)

Lemma tidy_ret {A : Type} (a : A) : tidy (ret a).
Proof. intros cur w. reflexivity. Qed.

Lemma tidy_throw {A : Type} (e : Exception) : tidy (@throw A e).
Proof. intros cur w. now left. Qed.

Lemma tidy_out_of_fuel {A : Type} : tidy (@out_of_fuel A).
Proof. intros cur w. exact I. Qed.

Lemma tidy_bind {A B : Type} (m : M A) (k : A -> M B) :
  tidy m -> (forall a, tidy (k a)) -> tidy (bind m k).
Proof.
  intros Hm Hk cur w. unfold bind.
  specialize (Hm cur w). destruct (m cur w) as [a cur1 w1|e w1|]; auto.
  subst w1. exact (Hk a cur1 w).
Qed.

(** [throw this.error(token, message)]: one report, then the throw. *)
Lemma tidy_error_throw {A : Type} (tok : option Token) (message : string) :
  tidy (bind (error_ tok message) (@throw A)).
Proof.
  intros cur w. unfold bind, error_, report_, ret, throw.
  destruct tok as [t|]; [|now left].
  destruct (type_is (Token.type t) EOF); right; eauto.
Qed.

Ltac tidy_up :=
  repeat first
    [ solve [auto]
    | apply tidy_ret | apply tidy_throw | apply tidy_out_of_fuel
    | apply tidy_error_throw
    | apply tidy_bind; [|intros ?]
    | match goal with
      | |- tidy (if ?b then _ else _) => destruct b
      | |- tidy (match ?o with Some _ => _ | None => _ end) => destruct o
      end ].

Lemma tidy_peek : tidy (peek tokens).
Proof. intros cur w. reflexivity. Qed.

Lemma tidy_previous : tidy (previous tokens).
Proof. intros cur w. reflexivity. Qed.

Lemma tidy_increment : tidy increment.
Proof. intros cur w. reflexivity. Qed.

Lemma tidy_type_of (tok : option Token) : tidy (type_of tok).
Proof. unfold type_of. tidy_up. Qed.

Lemma tidy_isAtEnd : tidy (isAtEnd tokens).
Proof. unfold isAtEnd. pose proof tidy_peek. pose proof tidy_type_of. tidy_up. Qed.

Lemma tidy_check (ty : TokenType) : tidy (check tokens ty).
Proof.
  unfold check. pose proof tidy_peek. pose proof tidy_type_of.
  pose proof tidy_isAtEnd. tidy_up.
Qed.

Lemma tidy_advance : tidy (advance tokens).
Proof.
  unfold advance. pose proof tidy_isAtEnd. pose proof tidy_increment.
  pose proof tidy_previous. tidy_up.
Qed.

Lemma tidy_match (types : list TokenType) : tidy (match_ tokens types).
Proof.
  induction types as [|ty rest IH]; unfold match_; fold (match_ tokens).
  - apply tidy_ret.
  - pose proof (tidy_check ty). pose proof tidy_advance. tidy_up.
Qed.

Lemma tidy_consume (ty : TokenType) (message : string) :
  tidy (consume tokens ty message).
Proof.
  unfold consume. pose proof (tidy_check ty). pose proof tidy_advance.
  pose proof tidy_peek. tidy_up.
Qed.

Lemma tidy_previous_operator : tidy (previous_operator tokens).
Proof. unfold previous_operator. pose proof tidy_previous. tidy_up. Qed.

Lemma tidy_previous_literal : tidy (previous_literal tokens).
Proof. unfold previous_literal. pose proof tidy_previous. tidy_up. Qed.

Lemma tidy_binary_loop (types : list TokenType) (operand : M Expr) :
  tidy operand ->
  forall (n : nat) (expr : Expr), tidy (binary_loop tokens n types operand expr).
Proof.
  intros Hoperand. induction n as [|n IH]; intros expr; cbn [binary_loop].
  - apply tidy_out_of_fuel.
  - pose proof (tidy_match types). pose proof tidy_previous_operator.
    apply tidy_bind; [assumption|]. intros [|]; [|apply tidy_ret].
    apply tidy_bind; [assumption|]. intros o.
    apply tidy_bind; [assumption|]. intros r. apply IH.
Qed.

Lemma tidy_grammar (fuel : nat) :
  tidy (expression tokens fuel) /\
  tidy (equality tokens fuel) /\
  tidy (comparison tokens fuel) /\
  tidy (term tokens fuel) /\
  tidy (factor tokens fuel) /\
  tidy (unary tokens fuel) /\
  tidy (primary tokens fuel).
Proof.
  induction fuel as [|f (IHe & IHq & IHc & IHt & IHf & IHu & IHp)].
  - repeat split; apply tidy_out_of_fuel.
  - pose proof tidy_match as Hm. pose proof tidy_previous_operator.
    pose proof tidy_previous_literal. pose proof tidy_peek.
    pose proof tidy_consume.
    refine (conj _ (conj _ (conj _ (conj _ (conj _ (conj _ _)))))).
    + exact IHq.
    + cbn [equality]. apply tidy_bind; [assumption|]. intros e.
      now apply tidy_binary_loop.
    + cbn [comparison]. apply tidy_bind; [assumption|]. intros e.
      now apply tidy_binary_loop.
    + cbn [term]. apply tidy_bind; [assumption|]. intros e.
      now apply tidy_binary_loop.
    + cbn [factor]. apply tidy_bind; [assumption|]. intros e.
      now apply tidy_binary_loop.
    + cbn [unary]. apply tidy_bind; [apply Hm|]. intros [|]; tidy_up.
    + cbn [primary].
      do 5 (apply tidy_bind; [apply Hm|]; intros [|]; [solve [tidy_up]|]).
      tidy_up.
Qed.

(** [parse] leaves the world as it is when it returns a tree, and reports
    at most once when it returns [null]. *)
Lemma parse_tidy (fuel : nat) (w w' : World) (r : option Expr) :
  parse tokens fuel w = Some (r, w') ->
  match r with
  | Some _ => w' = w
  | None => w' = w \/ exists line where_ message, w' = report line where_ message w
  end.
Proof.
  unfold parse. pose proof (proj1 (tidy_grammar fuel) 0 w) as H.
  destruct (expression tokens fuel 0 w) as [e cur1 w1|e w1|]; intros E;
    try discriminate; injection E as <- <-; exact H.
Qed.

End WithTokens.

(** *** Parsing a token list that holds an end-of-input token *)

Section Ended.

Variable tokens : list Token.
Variable j : nat.
Variable eof : Token.
Hypothesis Hj : token_at tokens j = Some eof.
Hypothesis Heof : Token.type eof = Kind EOF.

Lemma token_before (cur : nat) :
  cur <= j -> exists tok, token_at tokens cur = Some tok.
Proof.
  intros Hle. unfold token_at in *.
  destruct (nth_error tokens cur) as [tok|] eqn:E; [now exists tok|].
  apply nth_error_None in E.
  assert (Hlt : j < List.length tokens) by (apply nth_error_Some; congruence).
  lia.
Qed.












End Ended.

End ParserMore.

(** * Further properties of the evaluator and the driver *)

Module RunFacts.

Import ScanNotions ParseNotions.

(** A tree with a Grouping node anywhere returns no value. *)
Lemma evaluate_with_grouping (fuel : nat) :
  forall e : Expr, no_grouping e = false -> Interpreter.evaluate fuel e = None.
Proof.
  induction fuel as [|fuel IH]; intros e H; [reflexivity|].
  destruct e as [l o r | inner | v | o r]; cbn in H |- *.
  - unfold Interpreter.visitBinaryExpr.
    apply andb_false_iff in H as [H|H]; rewrite (IH _ H); [reflexivity|].
    now destruct (Interpreter.evaluate fuel l).
  - unfold Interpreter.visitGroupingExpr. now apply IH.
  - discriminate.
  - unfold Interpreter.visitUnaryExpr. now rewrite (IH _ H).
Qed.

Lemma type_is_false (v : TypeValue) (t : TokenType) :
  v <> Kind t -> type_is v t = false.
Proof.
  intros H. destruct (type_is v t) eqn:E; [|reflexivity].
  apply type_is_true in E. contradiction.
Qed.

Lemma binary_switch_unhandled (ty : TypeValue) (l r : Value) :
  (forall t, In t binary_operators -> ty <> Kind t) ->
  Interpreter.binary_switch ty l r = None.
Proof.
  intros H. unfold Interpreter.binary_switch.
  rewrite !type_is_false; [reflexivity | ..]; apply H; cbn; tauto.
Qed.

Lemma unary_switch_unhandled (ty : TypeValue) (v : Value) :
  (forall t, In t unary_operators -> ty <> Kind t) ->
  Interpreter.unary_switch ty v = None.
Proof.
  intros H. unfold Interpreter.unary_switch.
  rewrite !type_is_false; [reflexivity | ..]; apply H; cbn; tauto.
Qed.

Lemma binary_switch_defined (ty : TypeValue) (l r v : Value) :
  Interpreter.binary_switch ty l r = Some v -> RuntimeValue v.
Proof.
  unfold Interpreter.binary_switch, RuntimeValue.
  repeat match goal with
         | |- context [if ?b then _ else _] => destruct b
         end;
    intros H; try discriminate; injection H as <-;
    try discriminate; unfold js_add; destruct l, r; discriminate.
Qed.

Lemma unary_switch_defined (ty : TypeValue) (r v : Value) :
  Interpreter.unary_switch ty r = Some v -> RuntimeValue v.
Proof.
  unfold Interpreter.unary_switch, RuntimeValue.
  repeat match goal with
         | |- context [if ?b then _ else _] => destruct b
         end;
    intros H; try discriminate; injection H as <-; discriminate.
Qed.

(** On a tree with the parser's operators and no [undefined] literal, no
    value is [undefined]. *)
Lemma evaluate_defined (fuel : nat) :
  forall (e : Expr) (v : Value),
    parser_operators e -> defined_literals e ->
    Interpreter.evaluate fuel e = Some v -> RuntimeValue v.
Proof.
  induction fuel as [|fuel IH]; intros e v Hop Hlit H; [discriminate|].
  destruct e as [l o r | inner | lit | o r]; cbn in H, Hop, Hlit.
  - unfold Interpreter.visitBinaryExpr in H.
    destruct (Interpreter.evaluate fuel l) as [vl|]; [|discriminate].
    destruct (Interpreter.evaluate fuel r) as [vr|]; [|discriminate].
    injection H as <-.
    destruct Hop as [Ho [Hl Hr]].
    pose proof (proj1 (parser_operators_switch (Binary l o r)
                         (conj Ho (conj Hl Hr))) vl vr) as Hsw.
    destruct (Interpreter.binary_switch (Token.type o) vl vr) as [v|] eqn:E;
      [|contradiction].
    exact (binary_switch_defined _ _ _ _ E).
  - unfold Interpreter.visitGroupingExpr in H.
    exact (IH (Grouping inner) v Hop Hlit H).
  - injection H as <-. exact Hlit.
  - unfold Interpreter.visitUnaryExpr in H.
    destruct (Interpreter.evaluate fuel r) as [vr|]; [|discriminate].
    injection H as <-.
    destruct Hop as [Ho Hr].
    pose proof (proj1 (parser_operators_switch (Unary o r) (conj Ho Hr)) vr) as Hsw.
    destruct (Interpreter.unary_switch (Token.type o) vr) as [v|] eqn:E;
      [|contradiction].
    exact (unary_switch_defined _ _ _ E).
Qed.

(** The literals of a tree are those of its tokens. *)
Lemma spells_defined (e : Expr) (toks : list Token) :
  spells e toks ->
  Forall (fun tok => RuntimeValue (Token.literal tok)) toks ->
  defined_literals e.
Proof.
  induction 1 as [tok v H | lp rp e toks H1 H2 H IH | o r toks H IH
                 | l r o tl tr Hl IHl Hr IHr]; intros Hall; cbn.
  - inversion Hall as [|? ? Htok _]; subst.
    destruct H as [[_ ->]|[[_ ->]|[[_ ->]|[_ ->]]]];
      try discriminate; exact Htok.
  - inversion Hall as [|? ? _ Hrest]; subst.
    apply Forall_app in Hrest as [Hrest _]. auto.
  - inversion Hall; subst. auto.
  - apply Forall_app in Hall as [H1 H2]. inversion H2; subst. auto.
Qed.

Lemma literal_decodes_defined (tok : Token) :
  literal_decodes tok -> RuntimeValue (Token.literal tok).
Proof.
  unfold literal_decodes, RuntimeValue.
  destruct (Token.type tok) as [k|key]; [destruct k|]; intros H;
    try (rewrite H; discriminate).
  destruct H as (s & -> & _). discriminate.
Qed.

(** The world after some reports, begun with the initial world. *)
Lemma reported_facts (w w' : World) :
  reported w w' ->
  stdout w' = stdout w /\
  (w' = w \/ (hadError w' = true /\ stderr w' <> [])).
Proof.
  induction 1 as [w | w w' line where_ message H [IH1 IH2]].
  - split; [reflexivity | now left].
  - split; [exact IH1|]. right. split; [reflexivity|].
    cbn. intros E. now apply app_eq_nil in E as [_ E].
Qed.

Lemma parse_Some (tokens : list Token) (fuel : nat) (w w' : World) (e : Expr) :
  Parser.parse tokens fuel w = Some (Some e, w') ->
  exists cur', Parser.expression tokens fuel 0 w = Parser.Returned e cur' w'.
Proof.
  unfold Parser.parse.
  destruct (Parser.expression tokens fuel 0 w) as [e0 cur1 w1|e0 w1|]; intros H;
    try discriminate.
  injection H as <- <-. now exists cur1.
Qed.

(** What a parse that returned a tree says of it. *)
Lemma parsed_tree (tokens : list Token) (fuel : nat) (w w' : World) (e : Expr) :
  Parser.parse tokens fuel w = Some (Some e, w') ->
  parser_operators e /\ nested_at 1 e /\
  exists used rest, tokens = (used ++ rest)%list /\ spells e used.
Proof.
  intros H. apply parse_Some in H as (cur' & H).
  split; [exact (proj1 (ParserFacts.grammar_operators tokens fuel) _ _ _ _ _ H)|].
  split; [exact (proj1 (ParserMore.grammar_nested tokens fuel) _ _ _ _ _ H)|].
  destruct (proj1 (ParserMore.grammar_consumes tokens fuel) _ _ _ _ _ H)
    as (used & Hs & Hsk).
  exists used, (skipn cur' tokens). split; [exact Hsk | exact Hs].
Qed.


Lemma spells_within (tokens used rest : list Token) (e : Expr) :
  tokens = (used ++ rest)%list -> spells e used ->
  Forall (fun tok => RuntimeValue (Token.literal tok)) tokens ->
  defined_literals e /\ height e <= List.length tokens.
Proof.
  intros -> Hs Hall. apply Forall_app in Hall as [Hall _]. split.
  - exact (spells_defined e used Hs Hall).
  - pose proof (ParserMore.spells_height e used Hs). rewrite length_app. lia.
Qed.

(** [print] returns a text exactly on the trees without an [undefined]
    literal. *)
Lemma print_defined (e : Expr) :
  defined_literals e <-> exists text, AstPrinter.print e = Some text.
Proof.
  induction e as [l IHl o r IHr | inner IH | v | o r IHr]; cbn.
  - unfold AstPrinter.parenthesize. cbn. split.
    + intros [Hl Hr]. apply IHl in Hl as (tl & ->). apply IHr in Hr as (tr & ->).
      eauto.
    + intros (text & H).
      destruct (AstPrinter.print l) as [tl|]; [|discriminate].
      destruct (AstPrinter.print r) as [tr|]; [|discriminate].
      split; [apply IHl | apply IHr]; eauto.
  - unfold AstPrinter.parenthesize. cbn. split.
    + intros H. apply IH in H as (t & ->). eauto.
    + intros (text & H).
      destruct (AstPrinter.print inner) as [t|]; [|discriminate].
      apply IH. eauto.
  - unfold RuntimeValue. destruct v; cbn; split;
      try (intros _; eauto; discriminate); try (intros H; now elim H).
  - unfold AstPrinter.parenthesize. cbn. split.
    + intros H. apply IHr in H as (t & ->). eauto.
    + intros (text & H).
      destruct (AstPrinter.print r) as [t|]; [|discriminate].
      apply IHr. eauto.
Qed.

(** The scan of a text within a bound above its length. *)
Lemma scan_facts (fuel : nat) (src : string) (w : World) :
  String.length src < fuel ->
  exists (front : list Token) (l : nat) (w' : World),
    Scanner.scanTokens fuel (Scanner.new src) w
      = Some ((front ++ [Token.mk (Kind EOF) "" VNull l])%list, w') /\
    l = 1 + newlines src /\ Forall (token_of src) front /\
    List.length front <= String.length src /\ reported w w'.
Proof.
  intros Hf.
  destruct (ScannerFacts.scanTokens_ok fuel src w Hf) as (sc0 & w1 & Hscan & _).
  destruct (ScannerSteps.scanTokens_result fuel src w w1 _ Hscan)
    as (sc & Htoks & Hall & Hlen & Hline & Hrep).
  rewrite Htoks in Hscan.
  exists (Scanner.tokens sc), (Scanner.line sc), w1. auto.
Qed.

(** What a run that ended went through. *)
Lemma run_steps (fuel : nat) (src : string) (w : World) :
  run fuel src w <> OutOfFuel ->
  exists (toks : list Token) (w1 : World) (r : option Expr) (w2 : World),
    Scanner.scanTokens fuel (Scanner.new src) w = Some (toks, w1) /\
    Parser.parse toks fuel w1 = Some (r, w2) /\
    run fuel src w = interpret fuel r w2.
Proof.
  unfold run. intros H.
  destruct (Scanner.scanTokens fuel (Scanner.new src) w) as [[toks w1]|];
    [|now elim H].
  destruct (Parser.parse toks fuel w1) as [[r w2]|] eqn:Hp; [|now elim H].
  now exists toks, w1, r, w2.
Qed.

(** The tree of a parse of scanned tokens: operators of the parser, no
    [undefined] literal. *)
Lemma scanned_tree (fuel fuel' : nat) (src : string) (w w1 w2 : World)
    (toks : list Token) (e : Expr) :
  Scanner.scanTokens fuel (Scanner.new src) w = Some (toks, w1) ->
  Parser.parse toks fuel' w1 = Some (Some e, w2) ->
  parser_operators e /\ defined_literals e /\ height e <= String.length src + 1.
Proof.
  intros Hscan Hparse.
  destruct (ScannerSteps.scanTokens_result fuel src w w1 _ Hscan)
    as (sc & Htoks & Hall & Hlen & _ & _).
  destruct (parsed_tree toks fuel' w1 w2 e Hparse) as (Hop & _ & used & rest & Hu & Hs).
  split; [exact Hop|].
  assert (Hdef : Forall (fun tok => RuntimeValue (Token.literal tok)) toks).
  { rewrite Htoks. apply Forall_app. split.
    - eapply Forall_impl; [|exact Hall].
      intros tok (_ & _ & Hd & _). now apply literal_decodes_defined.
    - constructor; [discriminate | constructor]. }
  destruct (spells_within toks used rest e Hu Hs Hdef) as [Hd Hh].
  split; [exact Hd|].
  rewrite Htoks, length_app in Hh. cbn in Hh. lia.
Qed.

(** A line of white space only is empty once trimmed. *)
Lemma trim_left_blank (s : string) :
  Forall (fun c => is_white_space c = true) (list_ascii_of_string s) ->
  trim_left s = EmptyString.
Proof.
  induction s as [|c s IH]; cbn; [reflexivity|].
  intros H. inversion H as [|? ? Hc Hs]; subst. rewrite Hc. auto.
Qed.

Lemma trim_blank (s : string) :
  trim s = EmptyString <->
  Forall (fun c => is_white_space c = true) (list_ascii_of_string s).
Proof.
  unfold trim. split.
  - induction s as [|c s IH]; cbn; [constructor|].
    destruct (is_white_space c) eqn:Hc.
    + intros H. constructor; auto.
    + cbn. rewrite Hc. destruct (trim_right s); discriminate.
  - intros H. now rewrite (trim_left_blank s H).
Qed.

End RunFacts.

(** * [synchronize] *)

Module SyncFacts.

Import Parser Synchronize SyncNotions.

Section Ended.

Variable tokens : list Token.
Variable j : nat.
Variable eof : Token.
Hypothesis Hj : token_at tokens j = Some eof.
Hypothesis Heof : Token.type eof = Kind EOF.

Lemma isAtEnd_spec (cur : nat) (w : World) (tok : Token) :
  token_at tokens cur = Some tok ->
  isAtEnd tokens cur w = Returned (type_is (Token.type tok) EOF) cur w.
Proof.
  intros H. unfold isAtEnd, peek, type_of, bind, ret. now rewrite H.
Qed.

Lemma not_end_before (cur : nat) (tok : Token) :
  cur <= j -> token_at tokens cur = Some tok ->
  type_is (Token.type tok) EOF = false -> cur < j.
Proof.
  intros Hle Htok Hend. destruct (Nat.eq_dec cur j) as [->|Hne]; [|lia].
  rewrite Hj in Htok. injection Htok as <-. rewrite Heof in Hend. discriminate.
Qed.

Lemma synchronize_loop_stops (n : nat) :
  forall (i : nat) (w : World),
    S i <= j -> j - S i < n ->
    exists cur',
      synchronize_loop tokens n (S i) w = Returned tt cur' w /\
      S i <= cur' <= j /\ boundary tokens cur'.
Proof.
  induction n as [|n IH]; intros i w Hle Hn; [lia|].
  destruct (ParserMore.token_before tokens j eof Hj (S i) Hle) as (tok & Htok).
  destruct (ParserMore.token_before tokens j eof Hj i ltac:(lia)) as (prev & Hprev).
  cbn [synchronize_loop]. unfold bind at 1. rewrite (isAtEnd_spec _ w tok Htok).
  destruct (type_is (Token.type tok) EOF) eqn:Hend.
  - exists (S i). split; [reflexivity|]. split; [lia|].
    left. exists tok. split; [exact Htok | now apply type_is_true].
  - assert (Hlt : S i < j) by exact (not_end_before (S i) tok Hle Htok Hend).
    unfold bind at 1, previous at 1. unfold bind at 1, type_of at 1, ret at 1.
    rewrite Hprev.
    destruct (type_is (Token.type prev) SEMICOLON) eqn:Hsemi.
    + exists (S i). split; [reflexivity|]. split; [lia|].
      right; left. exists i, prev. repeat split; [exact Hprev | now apply type_is_true].
    + unfold bind at 1, peek at 1. unfold bind at 1, type_of at 1, ret at 1.
      rewrite Htok.
      destruct (statement_start (Token.type tok)) eqn:Hstart.
      * exists (S i). split; [reflexivity|]. split; [lia|].
        right; right. now exists tok.
      * unfold bind at 1.
        rewrite (ParserFacts.advance_spec tokens (S i) w tok Htok Hend).
        destruct (IH (S i) w ltac:(lia) ltac:(lia)) as (cur' & Hloop & Hcur & Hb).
        exists cur'. split; [exact Hloop|]. split; [lia | exact Hb].
Qed.

(** [synchronize] steps over at least one token, unless it stands on an
    end-of-input token, and stops on a boundary without a throw or a
    report. *)
Lemma synchronize_stops (fuel cur : nat) (w : World) :
  cur <= j -> j - cur < fuel ->
  exists cur',
    synchronize tokens fuel cur w = Returned tt cur' w /\
    cur <= cur' <= j /\ boundary tokens cur' /\
    (forall tok, token_at tokens cur = Some tok ->
                 Token.type tok <> Kind EOF -> cur < cur').
Proof.
  intros Hle Hf. unfold synchronize.
  destruct (ParserMore.token_before tokens j eof Hj cur Hle) as (tok & Htok).
  destruct (type_is (Token.type tok) EOF) eqn:Hend.
  - assert (E : advance tokens cur w =
                Returned (match cur with S i => token_at tokens i | O => None end) cur w).
    { unfold advance, bind. rewrite (isAtEnd_spec _ w tok Htok), Hend. reflexivity. }
    unfold bind at 1. rewrite E.
    destruct fuel as [|n]; [lia|].
    cbn [synchronize_loop]. unfold bind at 1.
    rewrite (isAtEnd_spec _ w tok Htok), Hend.
    exists cur. split; [reflexivity|]. split; [lia|].
    apply type_is_true in Hend. split.
    + left. now exists tok.
    + intros tok' Htok' Hne. congruence.
  - unfold bind at 1.
    rewrite (ParserFacts.advance_spec tokens cur w tok Htok Hend).
    pose proof (not_end_before cur tok Hle Htok Hend) as Hlt.
    destruct (synchronize_loop_stops fuel cur w ltac:(lia) ltac:(lia))
      as (cur' & Hloop & Hcur & Hb).
    exists cur'. split; [exact Hloop|]. split; [lia|]. split; [exact Hb|].
    intros. lia.
Qed.

End Ended.

End SyncFacts.

(** * Further properties of the program *)

Import ScanNotions ParseNotions SyncNotions.

(** ** The scanner *)

(** X1: the scan of a text, within a bound above its length, ends with the
    end-of-input token on the line one more than the number of line feeds
    of the text, also when the line feeds stand inside a string; every
    token before it is on a line between 1 and that line. *)
Theorem scan_counts_the_lines (src : string) (fuel : nat) (w : World) :
  String.length src < fuel ->
  exists (front : list Token) (eof : Token) (w' : World),
    Scanner.scanTokens fuel (Scanner.new src) w = Some ((front ++ [eof])%list, w') /\
    Token.type eof = Kind EOF /\
    Token.line eof = 1 + newlines src /\
    Forall (fun tok => 1 <= Token.line tok <= 1 + newlines src) front.
Proof.
  intros Hf.
  destruct (RunFacts.scan_facts fuel src w Hf) as (front & l & w' & Hs & Hl & Hall & _).
  exists front, (Token.mk (Kind EOF) "" VNull l), w'.
  split; [exact Hs|]. split; [reflexivity|]. split; [exact Hl|].
  eapply Forall_impl; [|exact Hall]. intros tok (_ & _ & _ & _ & H). exact H.
Qed.

Lemma scan_counts_the_lines_witness :
  exists (front : list Token) (eof : Token) (w' : World),
    Scanner.scanTokens 8
      (Scanner.new ("1" ++ String Scanner.LF (quoted ("a" ++ String Scanner.LF "b"))))
      initial_world = Some ((front ++ [eof])%list, w') /\
    Token.type eof = Kind EOF /\
    Token.line eof
      = 1 + newlines ("1" ++ String Scanner.LF (quoted ("a" ++ String Scanner.LF "b"))) /\
    Forall (fun tok =>
              1 <= Token.line tok
              <= 1 + newlines ("1" ++ String Scanner.LF
                                 (quoted ("a" ++ String Scanner.LF "b")))) front.
Proof.
  apply (scan_counts_the_lines
           ("1" ++ String Scanner.LF (quoted ("a" ++ String Scanner.LF "b")))
           8 initial_world).
  cbn. lia.
Defined.

(** X2: the literal of every scanned token is decoded from its lexeme: the
    Number the lexeme denotes for a NUMBER, the characters between the
    quotes for a STRING, [null] for every other token. *)
Theorem scanned_literals_decode_the_lexemes (src : string) (fuel : nat) (w : World) :
  String.length src < fuel ->
  exists (toks : list Token) (w' : World),
    Scanner.scanTokens fuel (Scanner.new src) w = Some (toks, w') /\
    Forall literal_decodes toks.
Proof.
  intros Hf.
  destruct (RunFacts.scan_facts fuel src w Hf) as (front & l & w' & Hs & _ & Hall & _).
  eexists _, w'. split; [exact Hs|].
  apply Forall_app. split.
  - eapply Forall_impl; [|exact Hall]. intros tok (_ & _ & H & _). exact H.
  - constructor; [reflexivity | constructor].
Qed.

Lemma scanned_literals_decode_the_lexemes_witness :
  exists (toks : list Token) (w' : World),
    Scanner.scanTokens 12 (Scanner.new ("1.5 + " ++ quoted "ab")) initial_world
      = Some (toks, w') /\
    Forall literal_decodes toks.
Proof.
  apply (scanned_literals_decode_the_lexemes ("1.5 + " ++ quoted "ab") 12 initial_world).
  cbn. lia.
Defined.

(** X3: every token before the end-of-input token has a non-empty lexeme
    that is a piece of the text, so that there are at most as many of them
    as the text has characters; the lexeme of the end-of-input token is
    empty. *)
Theorem scanned_lexemes_are_pieces_of_the_text (src : string) (fuel : nat) (w : World) :
  String.length src < fuel ->
  exists (front : list Token) (eof : Token) (w' : World),
    Scanner.scanTokens fuel (Scanner.new src) w = Some ((front ++ [eof])%list, w') /\
    Token.lexeme eof = EmptyString /\
    Forall (fun tok =>
              Token.lexeme tok <> EmptyString /\
              exists a b, Token.lexeme tok = JsString.substring a b src) front /\
    List.length front <= String.length src.
Proof.
  intros Hf.
  destruct (RunFacts.scan_facts fuel src w Hf)
    as (front & l & w' & Hs & _ & Hall & Hlen & _).
  exists front, (Token.mk (Kind EOF) "" VNull l), w'.
  split; [exact Hs|]. split; [reflexivity|]. split; [|exact Hlen].
  eapply Forall_impl; [|exact Hall]. intros tok (Ha & Hb & _). now split.
Qed.

Lemma scanned_lexemes_are_pieces_of_the_text_witness :
  exists (front : list Token) (eof : Token) (w' : World),
    Scanner.scanTokens 8 (Scanner.new "(1 <= 2") initial_world
      = Some ((front ++ [eof])%list, w') /\
    Token.lexeme eof = EmptyString /\
    Forall (fun tok =>
              Token.lexeme tok <> EmptyString /\
              exists a b, Token.lexeme tok = JsString.substring a b "(1 <= 2") front /\
    List.length front <= String.length "(1 <= 2".
Proof.
  apply (scanned_lexemes_are_pieces_of_the_text "(1 <= 2" 8 initial_world).
  cbn. lia.
Defined.

(** X4: all the scanner does to the world is to call [report]: it prints
    nothing to the standard output, and it leaves the world as it is or
    leaves [hadError] set with an error message written. *)
Theorem scan_only_reports (src : string) (fuel : nat) (w : World) :
  String.length src < fuel ->
  exists (toks : list Token) (w' : World),
    Scanner.scanTokens fuel (Scanner.new src) w = Some (toks, w') /\
    reported w w' /\
    stdout w' = stdout w /\
    (w' = w \/ (hadError w' = true /\ stderr w' <> [])).
Proof.
  intros Hf.
  destruct (RunFacts.scan_facts fuel src w Hf) as (front & l & w' & Hs & _ & _ & _ & Hr).
  eexists _, w'. split; [exact Hs|]. split; [exact Hr|].
  exact (RunFacts.reported_facts w w' Hr).
Qed.

Lemma scan_only_reports_witness :
  exists (toks : list Token) (w' : World),
    Scanner.scanTokens 6 (Scanner.new "1 @ #") initial_world = Some (toks, w') /\
    reported initial_world w' /\
    stdout w' = stdout initial_world /\
    (w' = initial_world \/ (hadError w' = true /\ stderr w' <> [])).
Proof.
  apply (scan_only_reports "1 @ #" 6 initial_world).
  cbn. lia.
Defined.

(** ** The parser *)



(** X6: the tree of a parse respects precedence and associativity: the left
    operand of a Binary node binds at least as tightly as its operator, the
    right operand more tightly, and the operand of a Unary node is a Unary
    node, a literal or a group. *)
Theorem parsed_trees_respect_precedence
    (tokens : list Token) (fuel : nat) (w w' : World) (e : Expr) :
  Parser.parse tokens fuel w = Some (Some e, w') -> well_nested e.
Proof.
  intros H. exact (proj1 (proj1 (proj2 (RunFacts.parsed_tree tokens fuel w w' e H)))).
Qed.

Lemma parsed_trees_respect_precedence_witness :
  well_nested
    (Binary (Literal (num 1)) (op PLUS "+")
       (Binary (Literal (num 2)) (op STAR "*") (Literal (num 3)))).
Proof.
  apply (parsed_trees_respect_precedence
           [Token.mk (Kind NUMBER) "1" (num 1) 1; op PLUS "+";
            Token.mk (Kind NUMBER) "2" (num 2) 1; op STAR "*";
            Token.mk (Kind NUMBER) "3" (num 3) 1; Token.mk (Kind EOF) "" VNull 1]
           20 initial_world initial_world).
  vm_compute. reflexivity.
Defined.

(** X7: the tree of a parse is built from a prefix of the token list, read
    from left to right: a literal from its token, a group from its two
    parentheses around the tokens of its content, a Unary node from its
    operator before the tokens of its operand, a Binary node from its
    operator between the tokens of its operands. *)
Theorem parsed_tree_spells_the_tokens
    (tokens : list Token) (fuel : nat) (w w' : World) (e : Expr) :
  Parser.parse tokens fuel w = Some (Some e, w') ->
  exists used rest, tokens = (used ++ rest)%list /\ spells e used.
Proof.
  intros H. exact (proj2 (proj2 (RunFacts.parsed_tree tokens fuel w w' e H))).
Qed.

Lemma parsed_tree_spells_the_tokens_witness :
  exists used rest,
    [Token.mk (Kind NUMBER) "1" (num 1) 1; op MINUS "-";
     Token.mk (Kind NUMBER) "2" (num 2) 1; op MINUS "-";
     Token.mk (Kind NUMBER) "3" (num 3) 1; Token.mk (Kind EOF) "" VNull 1]
    = (used ++ rest)%list /\
    spells
      (Binary (Binary (Literal (num 1)) (op MINUS "-") (Literal (num 2)))
         (op MINUS "-") (Literal (num 3)))
      used.
Proof.
  apply (parsed_tree_spells_the_tokens
           [Token.mk (Kind NUMBER) "1" (num 1) 1; op MINUS "-";
            Token.mk (Kind NUMBER) "2" (num 2) 1; op MINUS "-";
            Token.mk (Kind NUMBER) "3" (num 3) 1; Token.mk (Kind EOF) "" VNull 1]
           20 initial_world initial_world).
  vm_compute. reflexivity.
Defined.

(** X8: whatever the tokens, [parse] prints nothing and reports at most
    once: with a tree it leaves the world as it is, with [null] it leaves
    the world as it is or as one call of [report] made it. *)
Theorem parse_reports_at_most_once
    (tokens : list Token) (fuel : nat) (w w' : World) (r : option Expr) :
  Parser.parse tokens fuel w = Some (r, w') ->
  w' = w \/
  (r = None /\ exists line where_ message, w' = report line where_ message w).
Proof.
  intros H. pose proof (ParserMore.parse_tidy tokens fuel w w' r H) as Ht.
  destruct r as [e|]; [now left|].
  destruct Ht as [Ht|Ht]; [now left | now right].
Qed.

Lemma parse_reports_at_most_once_witness :
  report 1 " at end" "Expect expression" initial_world = initial_world \/
  (@None Expr = None /\
   exists line where_ message,
     report 1 " at end" "Expect expression" initial_world
     = report line where_ message initial_world).
Proof.
  apply (parse_reports_at_most_once
           [op MINUS "-"; Token.mk (Kind EOF) "" VNull 1] 14 initial_world).
  vm_compute. reflexivity.
Defined.

(** X9: on a token list with an end-of-input token at the index [j],
    [synchronize] begun at or before [j] returns without a throw and
    without a report, at an index up to [j] that is a boundary: the
    end-of-input token, just after a semicolon, or before a token that
    begins a statement; it has stepped over at least one token unless it
    began on an end-of-input token. *)
Theorem synchronize_stops_on_a_boundary
    (tokens : list Token) (j : nat) (eof : Token) (fuel cur : nat) (w : World) :
  Parser.token_at tokens j = Some eof ->
  Token.type eof = Kind EOF ->
  cur <= j -> j - cur < fuel ->
  exists cur',
    Synchronize.synchronize tokens fuel cur w = Parser.Returned tt cur' w /\
    cur <= cur' <= j /\ boundary tokens cur' /\
    (forall tok, Parser.token_at tokens cur = Some tok ->
                 Token.type tok <> Kind EOF -> cur < cur').
Proof.
  intros Hj Heof Hle Hf.
  exact (SyncFacts.synchronize_stops tokens j eof Hj Heof fuel cur w Hle Hf).
Qed.

Lemma synchronize_stops_on_a_boundary_witness :
  exists cur',
    Synchronize.synchronize
      [op MINUS "-"; op SEMICOLON ";"; Token.mk (Kind NUMBER) "1" (num 1) 1;
       Token.mk (Kind EOF) "" VNull 1] 4 0 initial_world
    = Parser.Returned tt cur' initial_world /\
    0 <= cur' <= 3 /\
    boundary
      [op MINUS "-"; op SEMICOLON ";"; Token.mk (Kind NUMBER) "1" (num 1) 1;
       Token.mk (Kind EOF) "" VNull 1] cur' /\
    (forall tok,
        Parser.token_at
          [op MINUS "-"; op SEMICOLON ";"; Token.mk (Kind NUMBER) "1" (num 1) 1;
           Token.mk (Kind EOF) "" VNull 1] 0 = Some tok ->
        Token.type tok <> Kind EOF -> 0 < cur').
Proof.
  apply (synchronize_stops_on_a_boundary
           [op MINUS "-"; op SEMICOLON ";"; Token.mk (Kind NUMBER) "1" (num 1) 1;
            Token.mk (Kind EOF) "" VNull 1] 3 (Token.mk (Kind EOF) "" VNull 1)
           4 0 initial_world).
  - reflexivity.
  - reflexivity.
  - lia.
  - lia.
Defined.

(** ** The interpreter *)

(** X10: [evaluate] returns a value exactly on the trees without a Grouping
    node: on such a tree it returns within as many nested calls as the tree
    is high, and on a tree with a Grouping node anywhere it returns within
    no number of nested calls. *)
Theorem evaluation_returns_exactly_without_groups (e : Expr) :
  (no_grouping e = true ->
   exists v, forall fuel, height e <= fuel -> Interpreter.evaluate fuel e = Some v) /\
  (no_grouping e = false -> forall fuel, Interpreter.evaluate fuel e = None).
Proof.
  split.
  - intros H. destruct (evaluate_total e H) as (v & Hv). exists v.
    intros fuel Hf. exact (evaluate_mono_le (height e) fuel e v Hf Hv).
  - intros H fuel. exact (RunFacts.evaluate_with_grouping fuel e H).
Qed.

Lemma evaluation_returns_exactly_without_groups_witness :
  exists v, forall fuel,
      height (Unary (op MINUS "-") (Literal (num 1))) <= fuel ->
      Interpreter.evaluate fuel (Unary (op MINUS "-") (Literal (num 1))) = Some v.
Proof.
  exact (proj1 (evaluation_returns_exactly_without_groups
                  (Unary (op MINUS "-") (Literal (num 1)))) eq_refl).
Defined.

(** X11: an operator that no [case] of the [switch] names falls through:
    with operands that evaluate, a Binary node whose operator is none of
    the ten binary operators, and a Unary node whose operator is neither
    [!] nor [-], evaluate to [undefined]. *)
Theorem unhandled_operator_yields_undefined
    (fuel : nat) (o : Token) (l r : Expr) (vl vr : Value) :
  Interpreter.evaluate fuel l = Some vl ->
  Interpreter.evaluate fuel r = Some vr ->
  ((forall t, In t binary_operators -> Token.type o <> Kind t) ->
   Interpreter.evaluate (S fuel) (Binary l o r) = Some VUndefined) /\
  ((forall t, In t unary_operators -> Token.type o <> Kind t) ->
   Interpreter.evaluate (S fuel) (Unary o r) = Some VUndefined).
Proof.
  intros Hl Hr. split; intros H; cbn.
  - unfold Interpreter.visitBinaryExpr. rewrite Hl, Hr.
    now rewrite (RunFacts.binary_switch_unhandled _ vl vr H).
  - unfold Interpreter.visitUnaryExpr. rewrite Hr.
    now rewrite (RunFacts.unary_switch_unhandled _ vr H).
Qed.

Lemma unhandled_operator_yields_undefined_witness :
  Interpreter.evaluate 2 (Binary (Literal (num 1)) (op BANG "!") (Literal (num 2)))
  = Some VUndefined.
Proof.
  refine (proj1 (unhandled_operator_yields_undefined 1 (op BANG "!")
                   (Literal (num 1)) (Literal (num 2)) (num 1) (num 2)
                   eq_refl eq_refl) _).
  intros t Ht. cbn in Ht.
  repeat (destruct Ht as [<-|Ht]; [discriminate|]). contradiction.
Defined.

(** X12: a tree with the operators the parser builds, without Grouping node
    and without [undefined] literal, evaluates to a RuntimeValue, never to
    [undefined]. *)
Theorem evaluation_yields_a_runtime_value (e : Expr) :
  parser_operators e -> defined_literals e -> no_grouping e = true ->
  exists v, Interpreter.evaluate (height e) e = Some v /\ RuntimeValue v.
Proof.
  intros Hop Hd Hg. destruct (evaluate_total e Hg) as (v & Hv).
  exists v. split; [exact Hv|].
  exact (RunFacts.evaluate_defined (height e) e v Hop Hd Hv).
Qed.

Lemma evaluation_yields_a_runtime_value_witness :
  exists v,
    Interpreter.evaluate (height (Unary (op BANG "!") (Literal VNull)))
      (Unary (op BANG "!") (Literal VNull)) = Some v /\
    RuntimeValue v.
Proof.
  apply (evaluation_yields_a_runtime_value (Unary (op BANG "!") (Literal VNull))).
  - cbn. split; [|exact I]. exists BANG. split; [now left | reflexivity].
  - cbn. discriminate.
  - reflexivity.
Defined.

(** ** The run of a script *)

(** X13: the exit code of the run of a script tells what happened.  With
    code 0 nothing was reported and one line was printed; with code 65
    [hadError] is set, an error message was written and one line was
    printed all the same; with code -1 nothing was printed and an error
    message was written.  The printed line is the text of a RuntimeValue.
    No other code occurs. *)
Theorem exit_code_tells_the_outcome
    (fuel : nat) (content : string) (code : Z) (w : World) :
  main_script fuel content = Some (code, w) ->
  (code = 0%Z /\ hadError w = false /\ stderr w = [] /\
   exists v, RuntimeValue v /\ stdout w = [Json.stringify v]) \/
  (code = 65%Z /\ hadError w = true /\ stderr w <> [] /\
   exists v, RuntimeValue v /\ stdout w = [Json.stringify v]) \/
  (code = (-1)%Z /\ stdout w = [] /\ stderr w <> []).
Proof.
  unfold main_script, runFile. intros H.
  destruct (RunFacts.run_steps fuel content initial_world)
    as (toks & w1 & r & w2 & Hscan & Hparse & Hrun).
  { intros E. rewrite E in H. discriminate. }
  rewrite Hrun in H.
  destruct (ScannerSteps.scanTokens_result _ _ _ _ _ Hscan)
    as (sc & _ & _ & _ & _ & Hrep).
  apply RunFacts.reported_facts in Hrep as [Hout Hw1].
  pose proof (ParserMore.parse_tidy _ _ _ _ _ Hparse) as Ht.
  destruct r as [e|].
  - subst w2. unfold interpret in H.
    destruct (Interpreter.evaluate fuel e) as [v|] eqn:Hv; [|discriminate].
    assert (Hd : RuntimeValue v).
    { destruct (RunFacts.scanned_tree _ _ _ _ _ _ _ _ Hscan Hparse) as (Hop & Hdef & _).
      exact (RunFacts.evaluate_defined fuel e v Hop Hdef Hv). }
    cbn in H. destruct (hadError w1) eqn:Hh; injection H as <- <-.
    + right. left. split; [reflexivity|]. split; [exact Hh|].
      split.
      * destruct Hw1 as [-> | [_ Hne]]; [discriminate | exact Hne].
      * exists v. split; [exact Hd|]. cbn. now rewrite Hout.
    + left. split; [reflexivity|]. split; [exact Hh|].
      destruct Hw1 as [-> | [Hc _]]; [|congruence].
      split; [reflexivity|]. exists v. split; [exact Hd | reflexivity].
  - cbn in H. injection H as <- <-. right. right.
    split; [reflexivity|]. split.
    + cbn. destruct Ht as [-> | (l & wh & m & ->)]; exact Hout.
    + cbn. intros E. now apply app_eq_nil in E as [_ E].
Qed.

Lemma exit_code_tells_the_outcome_witness :
  (65%Z = 0%Z /\
   hadError (console_log "1" (report 1 "" "Unexpected character." initial_world)) = false /\
   stderr (console_log "1" (report 1 "" "Unexpected character." initial_world)) = [] /\
   exists v, RuntimeValue v /\
     stdout (console_log "1" (report 1 "" "Unexpected character." initial_world))
     = [Json.stringify v]) \/
  (65%Z = 65%Z /\
   hadError (console_log "1" (report 1 "" "Unexpected character." initial_world)) = true /\
   stderr (console_log "1" (report 1 "" "Unexpected character." initial_world)) <> [] /\
   exists v, RuntimeValue v /\
     stdout (console_log "1" (report 1 "" "Unexpected character." initial_world))
     = [Json.stringify v]) \/
  (65%Z = (-1)%Z /\
   stdout (console_log "1" (report 1 "" "Unexpected character." initial_world)) = [] /\
   stderr (console_log "1" (report 1 "" "Unexpected character." initial_world)) <> []).
Proof.
  apply (exit_code_tells_the_outcome 30 "1 @").
  vm_compute. reflexivity.
Defined.



(** ** The printer *)

(** X15: [print] returns a text exactly on the trees without an [undefined]
    literal; on the others the call of [toString] on [undefined] throws. *)
Theorem print_returns_exactly_on_defined_literals (e : Expr) :
  defined_literals e <-> exists text, AstPrinter.print e = Some text.
Proof.
  exact (RunFacts.print_defined e).
Qed.

(** X16: [print] returns a text on every tree parsed from the tokens of a
    scan, whatever the text scanned. *)
Theorem parsed_text_prints
    (src : string) (fuel fuel' : nat) (w w1 w2 : World) (toks : list Token) (e : Expr) :
  Scanner.scanTokens fuel (Scanner.new src) w = Some (toks, w1) ->
  Parser.parse toks fuel' w1 = Some (Some e, w2) ->
  exists text, AstPrinter.print e = Some text.
Proof.
  intros Hscan Hparse. apply RunFacts.print_defined.
  exact (proj1 (proj2 (RunFacts.scanned_tree _ _ _ _ _ _ _ _ Hscan Hparse))).
Qed.

Lemma parsed_text_prints_witness :
  exists text,
    AstPrinter.print
      (Binary (Unary (op MINUS "-") (Literal (num 1))) (op STAR "*")
         (Grouping (Literal VNull)))
    = Some text.
Proof.
  eapply (parsed_text_prints "-1 * (nil)" 30 30 initial_world).
  - vm_compute. reflexivity.
  - vm_compute. reflexivity.
Defined.

(** ** The prompt *)

(** X17: a line of white space only ends the session with code 0 once
    [line] is printed; the lines after it are not run. *)
Theorem blank_line_ends_the_session
    (fuel : nat) (line : string) (rest : list string) (w : World) :
  Forall (fun c => is_white_space c = true) (list_ascii_of_string line) ->
  runPrompt fuel (line :: rest) w = Exited 0 (console_log "line" w).
Proof.
  intros H. apply RunFacts.trim_blank in H. cbn. unfold on_line. now rewrite H.
Qed.

Lemma blank_line_ends_the_session_witness :
  runPrompt 10 ["  "; "1"] initial_world = Exited 0 (console_log "line" initial_world).
Proof.
  apply (blank_line_ends_the_session 10 "  " ["1"] initial_world).
  repeat constructor.
Defined.

(** X18: a line that fails to parse ends the session: the TypeError of
    [interpret] on [null] is thrown out of the handler, the lines after it
    are not run, and the standard output holds [line] and nothing of the
    failed line. *)
Theorem unparsed_line_ends_the_session
    (fuel : nat) (line : string) (rest : list string) (w w1 w2 : World)
    (toks : list Token) :
  trim line <> EmptyString ->
  Scanner.scanTokens fuel (Scanner.new line) (console_log "line" w) = Some (toks, w1) ->
  Parser.parse toks fuel w1 = Some (None, w2) ->
  runPrompt fuel (line :: rest) w
  = Throw (TypeError "Cannot read properties of null (reading 'accept')") w2 /\
  stdout w2 = (stdout w ++ ["line"])%list.
Proof.
  intros Hne Hscan Hparse. split.
  - cbn. unfold on_line.
    destruct (String.eqb (trim line) "") eqn:E; [now apply String.eqb_eq in E|].
    unfold run. now rewrite Hscan, Hparse.
  - destruct (ScannerSteps.scanTokens_result _ _ _ _ _ Hscan)
      as (sc & _ & _ & _ & _ & Hrep).
    apply RunFacts.reported_facts in Hrep as [Hout _].
    pose proof (ParserMore.parse_tidy _ _ _ _ _ Hparse) as Ht. cbn in Ht.
    destruct Ht as [-> | (l & wh & m & ->)]; exact Hout.
Qed.

Lemma unparsed_line_ends_the_session_witness :
  runPrompt 20 ["1 +"; "2"] initial_world
  = Throw (TypeError "Cannot read properties of null (reading 'accept')")
      (report 1 " at end" "Expect expression" (console_log "line" initial_world)) /\
  stdout (report 1 " at end" "Expect expression" (console_log "line" initial_world))
  = (stdout initial_world ++ ["line"])%list.
Proof.
  eapply (unparsed_line_ends_the_session 20 "1 +" ["2"] initial_world).
  - discriminate.
  - vm_compute. reflexivity.
  - vm_compute. reflexivity.
Defined.
